(** * scales: musical intervals, scales and temperaments

    A shallow embedding of [scales/__init__.py] and the properties of its
    cumulative builder, of [ToneBasis] and of [Scale].

    Numbers.  A float64 is modelled as a real number ([R]): [/] is true
    division, [2 ** x] is [Rpower 2 x], [np.log2 x] is [ln x / ln 2], and
    the equalities below are those of exact real arithmetic; rounding and
    the range of floats are outside the model.

    Element types.  The first part of the development is the program on
    arrays of float64.  The module [Typed] is the program with the element
    type of every array written out: an array built from Python integers
    alone is int64, its products wrap around and a float assigned to it is
    cut to an integer.  On float64 arrays the two agree
    ([scale_from_rates_float64], [set_note_float64_agrees]).

    Arrays.  A numpy array is a mutable object.  The store maps an address
    to the contents of the array that lives there, a [Scale] holds the
    address of its [notes], and a method of the program is a computation
    that threads the store and either returns or raises. *)

From Stdlib Require Import Reals Lra Lia ZArith String List.
From stdpp Require Import base option list gmap.

Open Scope R_scope.

(** ** Arithmetic of the program *)

(** [2 ** x] *)
Definition pow2 (x : R) : R := Rpower 2 x.

(** [np.log2(x)] *)
Definition log2 (x : R) : R := ln x / ln 2.

(** [2 ** (cents/1200)], the expression shared by [ToneBasis.rates] and
    [Scale.set_note]. *)
Definition cents_to_rate (cents : R) : R := pow2 (cents / 1200).

(** ** Array operations (values) *)

(** The accumulation loop of [np.cumprod]: [acc] is the previous output. *)
Fixpoint cumprod_from (acc : R) (xs : list R) : list R :=
  match xs with
  | [] => []
  | x :: xs' => (acc * x) :: cumprod_from (acc * x) xs'
  end.

(** [np.cumprod(a)]: [out[0] = a[0]], [out[i] = out[i-1] * a[i]]. *)
Definition cumprod (a : list R) : list R :=
  match a with
  | [] => []
  | x :: xs => x :: cumprod_from x xs
  end.

(** [np.concatenate([a, b])] *)
Definition concatenate (a b : list R) : list R := a ++ b.

(** [scale_from_rates(origin, rates)] *)
Definition scale_from_rates (origin : R) (rates : list R) : list R :=
  cumprod (concatenate [origin] rates).

(** [a / b], element by element, on arrays of one length. *)
Fixpoint array_div (a b : list R) : list R :=
  match a, b with
  | x :: a', y :: b' => (x / y) :: array_div a' b'
  | _, _ => []
  end.

(** [a[1:]] *)
Definition slice_from_1 (a : list R) : list R := tail a.

(** [a[:-1]] *)
Definition slice_to_last (a : list R) : list R := removelast a.

(** [notes[1:] / notes[:-1]], the body of [Scale.rates]. *)
Definition consecutive_ratios (notes : list R) : list R :=
  array_div (slice_from_1 notes) (slice_to_last notes).

(** [1200 * np.log2(r)], the body of [Scale.intervals]. *)
Definition rates_to_cents (r : list R) : list R :=
  map (fun x => 1200 * log2 x) r.

(** The product [f * r1 * ... * ri], associated as the loop computes it. *)
Definition running_product (f : R) (rs : list R) : R := fold_left Rmult rs f.

(** ** Exceptions, the store and computations *)

(** The exceptions the program can raise: [ValueError] by the constructor of
    [Scale] and by [np.ones] on a negative length, [IndexError] by numpy
    indexing, [ZeroDivisionError] by [1200/n], [AttributeError] by reading
    an attribute that was never bound. *)
Inductive exn : Set :=
  | ValueError
  | IndexError
  | ZeroDivisionError
  | AttributeError.

Inductive outcome (A : Type) : Type :=
  | Return (a : A)
  | Raise (e : exn).
Arguments Return {A} a.
Arguments Raise {A} e.

(** Addresses of arrays, and the store of the arrays that are alive. *)
Abbreviation loc := nat (only parsing).
Abbreviation store := (gmap nat (list R)) (only parsing).

(** A computation runs from a store to a store and returns or raises. *)
Definition M (A : Type) : Type := store -> store * outcome A.

#[global] Instance M_ret : MRet M := fun A (a : A) h => (h, Return a).
#[global] Instance M_bind : MBind M := fun A B (f : A -> M B) (m : M A) h =>
  match m h with
  | (h', Return a) => f a h'
  | (h', Raise e) => (h', Raise e)
  end.

Definition raise {A} (e : exn) : M A := fun h => (h, Raise e).

(** A value or an exception computed without the store. *)
Definition lift {A} (o : outcome A) : M A := fun h => (h, o).

(** A new array: numpy allocates storage that no other array uses. *)
Definition alloc (a : list R) : M loc := fun h =>
  let l := fresh (dom h) in (<[l := a]> h, Return l).

(** The contents of the array at [l]. *)
Definition load (l : loc) : M (list R) := fun h =>
  match h !! l with
  | Some a => (h, Return a)
  | None => (h, Raise AttributeError)
  end.

(** Overwrite the contents of the array at [l]. *)
Definition write (l : loc) (a : list R) : M unit := fun h =>
  (<[l := a]> h, Return tt).

(** ** numpy indexing *)

(** An index [i] into an array of [len] elements: [0 <= i < len] is the
    position [i], [-len <= i < 0] is the position [len + i], anything else
    raises [IndexError]. *)
Definition np_index (len : nat) (i : Z) : outcome nat :=
  if ((0 <=? i) && (i <? Z.of_nat len))%Z then Return (Z.to_nat i)
  else if ((- Z.of_nat len <=? i) && (i <? 0))%Z
       then Return (Z.to_nat (Z.of_nat len + i))
       else Raise IndexError.

(** [a[i]] *)
Definition getitem (a : list R) (i : Z) : outcome R :=
  match np_index (length a) i with
  | Return k =>
      match a !! k with
      | Some x => Return x
      | None => Raise IndexError
      end
  | Raise e => Raise e
  end.

(** [a[i] = v], the contents of [a] afterwards. *)
Definition setitem (a : list R) (i : Z) (v : R) : outcome (list R) :=
  match np_index (length a) i with
  | Return k => Return (<[k := v]> a)
  | Raise e => Raise e
  end.

(** The argument of [np.array]: a Python list of numbers, or an array that
    already lives in the store. *)
Inductive array_like : Type :=
  | PyList (l : list R)
  | NdArray (p : loc).

(** [np.array(x)]: a new array with a copy of the elements of [x]. *)
Definition np_array (x : array_like) : M loc :=
  match x with
  | PyList l => alloc l
  | NdArray p => a ← load p; alloc a
  end.

(** [np.ones(n)] *)
Definition np_ones (n : nat) : list R := repeat 1 n.

(** ** class Scale *)

Module Scale.

(** A [Scale] object has one attribute, [notes], bound once by [__init__]
    to an array; [set_note] writes into that array and never rebinds the
    attribute. *)
Record t : Set := mk { notes : loc }.

(** [Scale(origin=None, rates=None, notes=None)] *)
Definition init (origin : option R) (rates : option (list R))
    (notes : option array_like) : M t :=
  match notes with
  | None =>
      match origin, rates with
      | Some o, Some r => p ← alloc (scale_from_rates o r); mret (mk p)
      | _, _ => raise ValueError
      end
  | Some ns =>
      match origin, rates with
      | None, None => p ← np_array ns; mret (mk p)
      | _, _ => raise ValueError
      end
  end.

(** [self.copy()] *)
Definition copy (self : t) : M t :=
  init None None (Some (NdArray (notes self))).

(** [self.rates()] *)
Definition rates (self : t) : M (list R) :=
  a ← load (notes self); mret (consecutive_ratios a).

(** [self.intervals()] *)
Definition intervals (self : t) : M (list R) :=
  r ← rates self; mret (rates_to_cents r).

(** [self.set_note(index, cents, reference)].  The right-hand side is
    read before the element is written; an unknown [reference] falls
    through every branch. *)
Definition set_note (self : t) (index : Z) (cents : R)
    (reference : string) : M t :=
  let rate := cents_to_rate cents in
  if String.eqb reference "current" then
    a ← load (notes self);
    x ← lift (getitem a index);
    a' ← lift (setitem a index (x * rate));
    _ ← write (notes self) a';
    mret self
  else if String.eqb reference "previous" then
    a ← load (notes self);
    x ← lift (getitem a (index - 1));
    a' ← lift (setitem a index (x * rate));
    _ ← write (notes self) a';
    mret self
  else if String.eqb reference "origin" then
    a ← load (notes self);
    x ← lift (getitem a 0);
    a' ← lift (setitem a index (x * rate));
    _ ← write (notes self) a';
    mret self
  else mret self.

End Scale.

(** ** class ToneBasis *)

Module ToneBasis.

(** The intervals, in cents.  No method writes into this array, so the
    object is modelled by the value of its elements. *)
Record t : Type := mk { intervals : list R }.

(** [ToneBasis(intervals)] *)
Definition init (intervals : list R) : t := mk intervals.

(** [ToneBasis.equidistant(n)]: [1200/n] is evaluated first, then
    [np.ones(n)]. *)
Definition equidistant (n : Z) : outcome t :=
  if (n =? 0)%Z then Raise ZeroDivisionError
  else if (n <? 0)%Z then Raise ValueError
  else Return (init (map (Rmult (1200 / IZR n)) (np_ones (Z.to_nat n)))).

(** [self.rates()]: [2 ** (self.intervals/1200)] *)
Definition rates (self : t) : list R :=
  map pow2 (map (fun c => c / 1200) (intervals self)).

(** [self.scale(origin)] *)
Definition scale (self : t) (origin : R) : list R :=
  scale_from_rates origin (rates self).

(** [self.to_scale(origin)] *)
Definition to_scale (self : t) (origin : R) : M Scale.t :=
  Scale.init (Some origin) (Some (rates self)) None.

End ToneBasis.

(** ** The element type of an array

    The definitions above are the program on arrays of float64.  numpy
    gives an array built from Python integers alone the element type
    int64: its products wrap around, and a float assigned to one of its
    elements is cut to an integer.  [Typed] is the program with the
    element type of every array written out; on float64 arrays it is the
    program above. *)

Module Typed.

(** A Python number: an [int] or a [float].  The integers of the model
    are those of the int64 range; numpy gives a list that holds a larger
    one another element type (uint64 or object). *)
Inductive pynum : Type :=
  | PyInt (z : Z)
  | PyFloat (x : R).

(** The number as a real: what [float(v)] is, without rounding. *)
Definition value (v : pynum) : R :=
  match v with
  | PyInt z => IZR z
  | PyFloat x => x
  end.

Definition in_int64 (z : Z) : Prop := (- 2 ^ 63 <= z < 2 ^ 63)%Z.

(** Two's complement wrap-around of int64 arithmetic. *)
Definition wrap64 (z : Z) : Z := ((z + 2 ^ 63) mod 2 ^ 64 - 2 ^ 63)%Z.

(** The contents of an array, with its element type. *)
Inductive ndarray : Type :=
  | IntArr (l : list Z)
  | FloatArr (l : list R).

Definition values (a : ndarray) : list R :=
  match a with
  | IntArr l => map IZR l
  | FloatArr l => l
  end.

(** [len(a)] *)
Definition size (a : ndarray) : nat :=
  match a with
  | IntArr l => length l
  | FloatArr l => length l
  end.

(** The integers of a list of Python numbers, when it holds no float. *)
Fixpoint ints_of (l : list pynum) : option (list Z) :=
  match l with
  | [] => Some []
  | PyInt z :: l' =>
      match ints_of l' with
      | Some zs => Some (z :: zs)
      | None => None
      end
  | PyFloat _ :: _ => None
  end.

(** The array numpy makes of a Python list: int64 when the list is not
    empty and holds integers alone, float64 otherwise ([np.array([])] is
    float64). *)
Definition array_of_list (l : list pynum) : ndarray :=
  match l, ints_of l with
  | _ :: _, Some zs => IntArr zs
  | _, _ => FloatArr (map value l)
  end.

(** [np.concatenate([a, b])]: int64 when both are, float64 otherwise. *)
Definition concatenate (a b : ndarray) : ndarray :=
  match a, b with
  | IntArr x, IntArr y => IntArr (x ++ y)
  | _, _ => FloatArr (values a ++ values b)
  end.

(** The accumulation loop of [np.cumprod] on int64. *)
Fixpoint cumprod_int_from (acc : Z) (xs : list Z) : list Z :=
  match xs with
  | [] => []
  | x :: xs' =>
      let p := wrap64 (acc * x) in p :: cumprod_int_from p xs'
  end.

(** [np.cumprod(a)]: the result has the element type of [a]. *)
Definition cumprod (a : ndarray) : ndarray :=
  match a with
  | IntArr [] => IntArr []
  | IntArr (x :: xs) => IntArr (x :: cumprod_int_from x xs)
  | FloatArr l => FloatArr (cumprod l)
  end.

(** [scale_from_rates(origin, rates)], with [rates] already an array; a
    Python list [l] of rates is [array_of_list l]. *)
Definition scale_from_rates (origin : pynum) (rates : ndarray) : ndarray :=
  cumprod (concatenate (array_of_list [origin]) rates).

(** A real cut toward zero. *)
Definition trunc (x : R) : Z :=
  if Rle_dec 0 x then Int_part x else (- Int_part (- x))%Z.

(** A float stored into an int64 element: cut toward zero; outside the
    int64 range the conversion of x86-64 gives the least int64 (numpy
    warns). *)
Definition astype_int64 (x : R) : Z :=
  let z := trunc x in
  if ((- 2 ^ 63 <=? z) && (z <? 2 ^ 63))%Z then z else (- 2 ^ 63)%Z.

(** [a[i]], as the float it is in a product with a float. *)
Definition getitem (a : ndarray) (i : Z) : outcome R :=
  match np_index (size a) i with
  | Return k =>
      match values a !! k with
      | Some x => Return x
      | None => Raise IndexError
      end
  | Raise e => Raise e
  end.

(** The float [v] stored at position [k] of [a]: the value is converted
    to the element type of [a]. *)
Definition assign (a : ndarray) (k : nat) (v : R) : ndarray :=
  match a with
  | IntArr l => IntArr (<[k := astype_int64 v]> l)
  | FloatArr l => FloatArr (<[k := v]> l)
  end.

(** [a[i] = v] for a float [v], the contents of [a] afterwards. *)
Definition setitem (a : ndarray) (i : Z) (v : R) : outcome ndarray :=
  match np_index (size a) i with
  | Return k => Return (assign a k v)
  | Raise e => Raise e
  end.

(** Computations on a store of typed arrays. *)
Definition TM (A : Type) : Type :=
  gmap nat ndarray -> gmap nat ndarray * outcome A.

#[global] Instance TM_ret : MRet TM := fun A (a : A) h => (h, Return a).
#[global] Instance TM_bind : MBind TM :=
  fun A B (f : A -> TM B) (m : TM A) h =>
    match m h with
    | (h', Return a) => f a h'
    | (h', Raise e) => (h', Raise e)
    end.

Definition raise {A} (e : exn) : TM A := fun h => (h, Raise e).

Definition lift {A} (o : outcome A) : TM A := fun h => (h, o).

Definition alloc (a : ndarray) : TM loc := fun h =>
  let l := fresh (dom h) in (<[l := a]> h, Return l).

Definition load (l : loc) : TM ndarray := fun h =>
  match h !! l with
  | Some a => (h, Return a)
  | None => (h, Raise AttributeError)
  end.

Definition write (l : loc) (a : ndarray) : TM unit := fun h =>
  (<[l := a]> h, Return tt).

(** An argument that numpy reads as an array: a Python list, an array
    nothing else refers to (such as the result of [self.rates()]), given
    by its contents, or an array that lives in the store. *)
Inductive array_like : Type :=
  | PyList (l : list pynum)
  | NdArray (a : ndarray)
  | NdRef (p : loc).

(** The contents numpy reads from the argument. *)
Definition asarray (x : array_like) : TM ndarray :=
  match x with
  | PyList l => mret (array_of_list l)
  | NdArray a => mret a
  | NdRef p => load p
  end.

(** [np.array(x)]: a new array with a copy of the elements of [x]. *)
Definition np_array (x : array_like) : TM loc :=
  a ← asarray x; alloc a.

Module Scale.

Record t : Set := mk { notes : loc }.

(** [Scale(origin=None, rates=None, notes=None)] *)
Definition init (origin : option pynum) (rates : option array_like)
    (notes : option array_like) : TM t :=
  match notes with
  | None =>
      match origin, rates with
      | Some o, Some r =>
          a ← asarray r; p ← alloc (scale_from_rates o a); mret (mk p)
      | _, _ => raise ValueError
      end
  | Some ns =>
      match origin, rates with
      | None, None => p ← np_array ns; mret (mk p)
      | _, _ => raise ValueError
      end
  end.

(** [self.copy()] *)
Definition copy (self : t) : TM t :=
  init None None (Some (NdRef (notes self))).

(** [self.rates()]: [/] is true division, the result is float64. *)
Definition rates (self : t) : TM ndarray :=
  a ← load (notes self); mret (FloatArr (consecutive_ratios (values a))).

(** [self.intervals()] *)
Definition intervals (self : t) : TM ndarray :=
  r ← rates self; mret (FloatArr (rates_to_cents (values r))).

(** [self.set_note(index, cents, reference)]: [cents/1200] and [rate] are
    floats whatever [cents] is, and so is the product that is stored. *)
Definition set_note (self : t) (index : Z) (cents : R)
    (reference : string) : TM t :=
  let rate := cents_to_rate cents in
  if String.eqb reference "current" then
    a ← load (notes self);
    x ← lift (getitem a index);
    a' ← lift (setitem a index (x * rate));
    _ ← write (notes self) a';
    mret self
  else if String.eqb reference "previous" then
    a ← load (notes self);
    x ← lift (getitem a (index - 1));
    a' ← lift (setitem a index (x * rate));
    _ ← write (notes self) a';
    mret self
  else if String.eqb reference "origin" then
    a ← load (notes self);
    x ← lift (getitem a 0);
    a' ← lift (setitem a index (x * rate));
    _ ← write (notes self) a';
    mret self
  else mret self.

End Scale.

Module ToneBasis.

Record t : Type := mk { intervals : ndarray }.

(** [ToneBasis(intervals)] *)
Definition init (intervals : list pynum) : t := mk (array_of_list intervals).

(** [ToneBasis.equidistant(n)]: [1200/n * np.ones(n)] is float64. *)
Definition equidistant (n : Z) : outcome t :=
  if (n =? 0)%Z then Raise ZeroDivisionError
  else if (n <? 0)%Z then Raise ValueError
  else Return (mk (FloatArr
                     (map (Rmult (1200 / IZR n)) (np_ones (Z.to_nat n))))).

(** [self.rates()]: [self.intervals/1200] is true division, the result is
    float64. *)
Definition rates (self : t) : ndarray :=
  FloatArr (map pow2 (map (fun c => c / 1200) (values (intervals self)))).

(** [self.scale(origin)] *)
Definition scale (self : t) (origin : pynum) : ndarray :=
  scale_from_rates origin (rates self).

(** [self.to_scale(origin)] *)
Definition to_scale (self : t) (origin : pynum) : TM Scale.t :=
  Scale.init (Some origin) (Some (NdArray (rates self))) None.

End ToneBasis.

End Typed.

(** ** Properties of the array operations *)

Lemma cumprod_from_length acc xs : length (cumprod_from acc xs) = length xs.
Proof.
  revert acc. induction xs as [|x xs IH]; intros acc; simpl; [reflexivity|].
  now rewrite IH.
Qed.

Lemma cumprod_from_lookup xs : forall acc (i : nat),
  (i < length xs)%nat ->
  cumprod_from acc xs !! i = Some (running_product acc (take (S i) xs)).
Proof.
  induction xs as [|x xs IH]; intros acc i Hi; simpl in *; [lia|].
  destruct i as [|i]; simpl.
  - reflexivity.
  - rewrite IH by lia. reflexivity.
Qed.

Lemma scale_from_rates_length f rs :
  length (scale_from_rates f rs) = S (length rs).
Proof. unfold scale_from_rates. simpl. now rewrite cumprod_from_length. Qed.

Lemma scale_from_rates_lookup f rs (i : nat) :
  (i <= length rs)%nat ->
  scale_from_rates f rs !! i = Some (running_product f (take i rs)).
Proof.
  intros Hi. unfold scale_from_rates. simpl.
  destruct i as [|i]; [reflexivity|]. simpl.
  apply cumprod_from_lookup. lia.
Qed.


(** ** Properties of the arithmetic *)

Lemma ln2_pos : 0 < ln 2.
Proof. pose proof ln_lt_2. lra. Qed.

Lemma pow2_pos x : 0 < pow2 x.
Proof. unfold pow2, Rpower. apply exp_pos. Qed.

Lemma log2_pow2 x : log2 (pow2 x) = x.
Proof.
  unfold log2, pow2, Rpower. rewrite ln_exp.
  field. pose proof ln2_pos. lra.
Qed.

Lemma pow2_1 : pow2 1 = 2.
Proof. unfold pow2. apply Rpower_1. lra. Qed.

Lemma pow2_0 : pow2 0 = 1.
Proof. unfold pow2. apply Rpower_O. lra. Qed.

Lemma pow2_add x y : pow2 x * pow2 y = pow2 (x + y).
Proof. unfold pow2. symmetry. apply Rpower_plus. Qed.

Lemma pow2_gt_1 x : 0 < x -> 1 < pow2 x.
Proof.
  intros Hx. rewrite <- pow2_0. unfold pow2.
  apply Rpower_lt; lra.
Qed.

Lemma cents_to_rate_0 : cents_to_rate 0 = 1.
Proof. unfold cents_to_rate. replace (0 / 1200) with 0 by lra. apply pow2_0. Qed.

Lemma cents_to_rate_1200 : cents_to_rate 1200 = 2.
Proof.
  unfold cents_to_rate. replace (1200 / 1200) with 1 by lra. apply pow2_1.
Qed.

(** [Scale.intervals] undoes [ToneBasis.rates] on one element. *)
Lemma cents_of_rate_of_cents c : 1200 * log2 (cents_to_rate c) = c.
Proof. unfold cents_to_rate. rewrite log2_pow2. lra. Qed.

(** ** Consecutive ratios against cumulative products *)

Lemma consecutive_ratios_cons2 x y l :
  consecutive_ratios (x :: y :: l) = (y / x) :: consecutive_ratios (y :: l).
Proof. reflexivity. Qed.

Lemma consecutive_ratios_length l :
  length (consecutive_ratios l) = pred (length l).
Proof.
  destruct l as [|x l]; [reflexivity|].
  revert x. induction l as [|y l IH]; intros x; [reflexivity|].
  rewrite consecutive_ratios_cons2. simpl length. rewrite IH. reflexivity.
Qed.

(** The quotients of the running products are the factors, as long as no
    running product is zero. *)
Lemma consecutive_ratios_cumprod_from acc rs :
  acc <> 0 -> Forall (fun r => r <> 0) rs ->
  consecutive_ratios (acc :: cumprod_from acc rs) = rs.
Proof.
  intros Hacc Hrs. revert acc Hacc.
  induction Hrs as [|r rs Hr _ IH]; intros acc Hacc; [reflexivity|].
  simpl cumprod_from. rewrite consecutive_ratios_cons2.
  rewrite IH by (apply Rmult_integral_contrapositive_currified; assumption).
  f_equal. field. exact Hacc.
Qed.

Lemma consecutive_ratios_scale_from_rates f rs :
  f <> 0 -> Forall (fun r => r <> 0) rs ->
  consecutive_ratios (scale_from_rates f rs) = rs.
Proof. apply consecutive_ratios_cumprod_from. Qed.

(** The running products of the quotients are the notes, as long as no
    note is zero. *)
Lemma cumprod_from_consecutive_ratios x l :
  Forall (fun r => r <> 0) (x :: l) ->
  cumprod_from x (consecutive_ratios (x :: l)) = l.
Proof.
  revert x. induction l as [|y l IH]; intros x Hnz; [reflexivity|].
  rewrite consecutive_ratios_cons2. simpl cumprod_from.
  inversion Hnz as [|? ? Hx Hyl]; subst.
  replace (x * (y / x)) with y by (field; exact Hx).
  rewrite IH by exact Hyl. reflexivity.
Qed.

Lemma scale_from_rates_consecutive_ratios x l :
  Forall (fun r => r <> 0) (x :: l) ->
  scale_from_rates x (consecutive_ratios (x :: l)) = x :: l.
Proof.
  intros Hnz. unfold scale_from_rates. simpl.
  now rewrite cumprod_from_consecutive_ratios.
Qed.

Lemma rates_to_cents_of_rates cs :
  rates_to_cents (map pow2 (map (fun c => c / 1200) cs)) = cs.
Proof.
  unfold rates_to_cents. rewrite !map_map.
  induction cs as [|c cs IH]; simpl; [reflexivity|].
  rewrite IH. f_equal. apply cents_of_rate_of_cents.
Qed.

Lemma ToneBasis_rates_nonzero (B : ToneBasis.t) :
  Forall (fun r => r <> 0) (ToneBasis.rates B).
Proof.
  unfold ToneBasis.rates.
  induction (ToneBasis.intervals B) as [|c cs IH]; simpl; constructor.
  - pose proof (pow2_pos (c / 1200)). lra.
  - exact IH.
Qed.

Lemma running_product_repeat_pow2 x (n : nat) acc :
  running_product acc (repeat (pow2 x) n) = acc * pow2 (INR n * x).
Proof.
  unfold running_product. revert acc.
  induction n as [|n IH]; intros acc.
  - simpl. rewrite Rmult_0_l, pow2_0. lra.
  - rewrite S_INR. simpl. rewrite IH.
    rewrite Rmult_assoc, pow2_add. f_equal. f_equal. lra.
Qed.

(** ** The cumulative builder *)


(** ** ToneBasis *)

(** C6.  [rates()] of a basis with cents [c1;...;cn] has the same length
    and order, its [i]-th element is [2^(ci/1200)], and [1200] cents is
    the ratio [2]. *)
Theorem ToneBasis_rates_cents_to_ratio (B : ToneBasis.t) :
  length (ToneBasis.rates B) = length (ToneBasis.intervals B)
  /\ ToneBasis.rates B
     = map (fun c => Rpower 2 (c / 1200)) (ToneBasis.intervals B)
  /\ (forall i : nat,
        ToneBasis.rates B !! i
        = (fun c => Rpower 2 (c / 1200)) <$> ToneBasis.intervals B !! i)
  /\ ToneBasis.rates (ToneBasis.init [1200]) = [2].
Proof.
  assert (E : ToneBasis.rates B
              = map (fun c => Rpower 2 (c / 1200)) (ToneBasis.intervals B)).
  { unfold ToneBasis.rates. rewrite map_map. reflexivity. }
  split; [rewrite E; apply length_map|].
  split; [exact E|].
  split.
  - intros i. rewrite E. apply list_lookup_fmap.
  - unfold ToneBasis.rates. simpl. f_equal. apply cents_to_rate_1200.
Qed.

(** C7.  For [n >= 1], [equidistant n] has [n] intervals of [1200/n] cents;
    its rates are [n] copies of [2^(1/n)], and their product is [2]. *)
Theorem equidistant_divides_octave (n : Z) :
  (1 <= n)%Z ->
  exists B : ToneBasis.t,
    ToneBasis.equidistant n = Return B
    /\ length (ToneBasis.intervals B) = Z.to_nat n
    /\ ToneBasis.intervals B = repeat (1200 / IZR n) (Z.to_nat n)
    /\ ToneBasis.rates B = repeat (Rpower 2 (1 / IZR n)) (Z.to_nat n)
    /\ running_product 1 (ToneBasis.rates B) = 2.
Proof.
  intros Hn.
  assert (Hnz : IZR n <> 0) by (apply not_0_IZR; lia).
  assert (EI : map (Rmult (1200 / IZR n)) (np_ones (Z.to_nat n))
               = repeat (1200 / IZR n) (Z.to_nat n)).
  { unfold np_ones. rewrite map_repeat. f_equal. lra. }
  assert (ER : map pow2 (map (fun c => c / 1200)
                 (repeat (1200 / IZR n) (Z.to_nat n)))
               = repeat (pow2 (1 / IZR n)) (Z.to_nat n)).
  { rewrite !map_repeat. f_equal. f_equal. field. exact Hnz. }
  unfold ToneBasis.equidistant.
  destruct (Z.eqb_spec n 0) as [?|_]; [lia|].
  destruct (Z.ltb_spec n 0) as [?|_]; [lia|].
  eexists. split; [reflexivity|].
  unfold ToneBasis.rates, ToneBasis.init. simpl ToneBasis.intervals.
  rewrite EI, ER.
  split; [apply repeat_length|].
  split; [reflexivity|].
  split; [reflexivity|].
  rewrite running_product_repeat_pow2.
  rewrite INR_IZR_INZ, Z2Nat.id by lia.
  replace (IZR n * (1 / IZR n)) with 1 by (field; exact Hnz).
  rewrite pow2_1. lra.
Qed.

(** Twelve equal steps. *)
Lemma equidistant_divides_octave_12 :
  (1 <= 12)%Z /\
  exists B : ToneBasis.t,
    ToneBasis.equidistant 12 = Return B
    /\ length (ToneBasis.intervals B) = Z.to_nat 12
    /\ ToneBasis.intervals B = repeat (1200 / IZR 12) (Z.to_nat 12)
    /\ ToneBasis.rates B = repeat (Rpower 2 (1 / IZR 12)) (Z.to_nat 12)
    /\ running_product 1 (ToneBasis.rates B) = 2.
Proof. split; [lia | apply (equidistant_divides_octave 12); lia]. Defined.

(** ** Running computations *)

Lemma alloc_fresh (h : store) (a : list R) :
  exists p : loc, h !! p = None /\ alloc a h = (<[p := a]> h, Return p).
Proof.
  exists (fresh (dom h)). split; [|reflexivity].
  apply not_elem_of_dom. apply is_fresh.
Qed.

Lemma bind_return {A B} (m : M A) (f : A -> M B) (h h' : store) (a : A) :
  m h = (h', Return a) -> (m ≫= f) h = f a h'.
Proof. intros E. unfold mbind, M_bind. rewrite E. reflexivity. Qed.

Lemma bind_raise {A B} (m : M A) (f : A -> M B) (h h' : store) (e : exn) :
  m h = (h', Raise e) -> (m ≫= f) h = (h', Raise e).
Proof. intros E. unfold mbind, M_bind. rewrite E. reflexivity. Qed.

Lemma load_allocated (h : store) (p : loc) (a : list R) :
  h !! p = Some a -> load p h = (h, Return a).
Proof. intros E. unfold load. rewrite E. reflexivity. Qed.

Lemma consecutive_ratios_lookup (l : list R) (i : nat) :
  consecutive_ratios l !! i
  = match l !! i, l !! S i with
    | Some x, Some y => Some (y / x)
    | _, _ => None
    end.
Proof.
  destruct l as [|x l]; [reflexivity|].
  revert x i. induction l as [|y l IH]; intros x i.
  - destruct i; reflexivity.
  - rewrite consecutive_ratios_cons2. destruct i as [|i]; [reflexivity|].
    simpl lookup at 1. rewrite IH. reflexivity.
Qed.

(** *** The constructor of Scale *)

Lemma init_from_rates (h : store) (o : R) (r : list R) :
  exists p : loc, h !! p = None /\
    Scale.init (Some o) (Some r) None h
    = (<[p := scale_from_rates o r]> h, Return (Scale.mk p)).
Proof.
  destruct (alloc_fresh h (scale_from_rates o r)) as (p & Hp & E).
  exists p. split; [exact Hp|].
  unfold Scale.init. rewrite (bind_return _ _ _ _ _ E). reflexivity.
Qed.

Lemma init_from_list (h : store) (l : list R) :
  exists p : loc, h !! p = None /\
    Scale.init None None (Some (PyList l)) h
    = (<[p := l]> h, Return (Scale.mk p)).
Proof.
  destruct (alloc_fresh h l) as (p & Hp & E).
  exists p. split; [exact Hp|].
  unfold Scale.init, np_array. rewrite (bind_return _ _ _ _ _ E). reflexivity.
Qed.

Lemma init_from_array (h : store) (q : loc) (a : list R) :
  h !! q = Some a ->
  exists p : loc, h !! p = None /\
    Scale.init None None (Some (NdArray q)) h
    = (<[p := a]> h, Return (Scale.mk p)).
Proof.
  intros Hq. destruct (alloc_fresh h a) as (p & Hp & E).
  exists p. split; [exact Hp|].
  assert (E' : np_array (NdArray q) h = (<[p := a]> h, Return p)).
  { unfold np_array.
    rewrite (bind_return _ _ _ _ _ (load_allocated _ _ _ Hq)). exact E. }
  unfold Scale.init. rewrite (bind_return _ _ _ _ _ E'). reflexivity.
Qed.

(** *** Indexing *)

Lemma np_index_position (len i : nat) :
  (i < len)%nat -> np_index len (Z.of_nat i) = Return i.
Proof.
  intros Hi. unfold np_index.
  destruct (Z.leb_spec 0 (Z.of_nat i)); [|lia].
  destruct (Z.ltb_spec (Z.of_nat i) (Z.of_nat len)); [|lia].
  simpl. now rewrite Nat2Z.id.
Qed.

Lemma np_index_last (len : nat) :
  (0 < len)%nat -> np_index len (-1) = Return (pred len).
Proof.
  intros Hlen. unfold np_index. simpl andb.
  destruct (Z.leb_spec (- Z.of_nat len) (-1)); [|lia].
  destruct (Z.ltb_spec (-1) 0); [|lia].
  simpl. f_equal. lia.
Qed.

Lemma getitem_position (a : list R) (i : nat) (x : R) :
  a !! i = Some x -> getitem a (Z.of_nat i) = Return x.
Proof.
  intros E. unfold getitem.
  rewrite np_index_position by (eapply lookup_lt_Some; exact E).
  rewrite E. reflexivity.
Qed.

Lemma setitem_position (a : list R) (i : nat) (v : R) :
  (i < length a)%nat -> setitem a (Z.of_nat i) v = Return (<[i := v]> a).
Proof.
  intros Hi. unfold setitem. rewrite np_index_position by exact Hi.
  reflexivity.
Qed.

(** *** set_note, branch by branch *)

(** Decide the comparisons of a literal [reference] and keep the branch
    that runs. *)
Ltac pick_branch :=
  repeat match goal with
  | |- context [String.eqb ?x ?y] =>
      let b := eval vm_compute in (String.eqb x y) in
      change (String.eqb x y) with b
  end;
  cbv iota zeta.

Lemma set_note_writes (s : Scale.t) (h : store) (a : list R)
    (i : nat) (src : Z) (v rate : R) :
  h !! Scale.notes s = Some a -> (i < length a)%nat ->
  getitem a src = Return v ->
  (a ← load (Scale.notes s);
   x ← lift (getitem a src);
   a' ← lift (setitem a (Z.of_nat i) (x * rate));
   _ ← write (Scale.notes s) a';
   mret s) h
  = (<[Scale.notes s := <[i := v * rate]> a]> h, Return s).
Proof.
  intros Hs Hi Hget.
  rewrite (bind_return _ _ _ _ _ (load_allocated _ _ _ Hs)).
  unfold mbind, M_bind, lift, write, mret, M_ret.
  rewrite Hget, setitem_position by exact Hi. reflexivity.
Qed.

Lemma set_note_current (s : Scale.t) (h : store) (a : list R)
    (i : nat) (c x : R) :
  h !! Scale.notes s = Some a -> a !! i = Some x ->
  Scale.set_note s (Z.of_nat i) c "current" h
  = (<[Scale.notes s := <[i := x * cents_to_rate c]> a]> h, Return s).
Proof.
  intros Hs Hx. unfold Scale.set_note. pick_branch.
  apply set_note_writes; [exact Hs| |].
  - eapply lookup_lt_Some; exact Hx.
  - apply getitem_position; exact Hx.
Qed.

Lemma set_note_previous (s : Scale.t) (h : store) (a : list R)
    (i : nat) (c y : R) :
  h !! Scale.notes s = Some a -> (i < length a)%nat ->
  getitem a (Z.of_nat i - 1) = Return y ->
  Scale.set_note s (Z.of_nat i) c "previous" h
  = (<[Scale.notes s := <[i := y * cents_to_rate c]> a]> h, Return s).
Proof.
  intros Hs Hi Hy. unfold Scale.set_note. pick_branch.
  apply set_note_writes; [exact Hs|exact Hi|exact Hy].
Qed.

Lemma set_note_origin (s : Scale.t) (h : store) (a : list R)
    (i : nat) (c x0 : R) :
  h !! Scale.notes s = Some a -> (i < length a)%nat ->
  a !! 0%nat = Some x0 ->
  Scale.set_note s (Z.of_nat i) c "origin" h
  = (<[Scale.notes s := <[i := x0 * cents_to_rate c]> a]> h, Return s).
Proof.
  intros Hs Hi Hx. unfold Scale.set_note. pick_branch.
  apply set_note_writes; [exact Hs|exact Hi|].
  apply (getitem_position a 0). exact Hx.
Qed.

(** [set_note] touches no array other than the notes of its scale. *)
Lemma set_note_frame (s : Scale.t) (i : Z) (c : R) (ref : string)
    (h h' : store) (r : outcome Scale.t) (p : loc) :
  Scale.set_note s i c ref h = (h', r) -> p <> Scale.notes s ->
  h' !! p = h !! p.
Proof.
  intros E Hp. unfold Scale.set_note in E.
  unfold mbind, M_bind, load, lift, write, mret, M_ret in E.
  repeat match type of E with
  | context [String.eqb ?x ?y] => destruct (String.eqb x y)
  | context [h !! ?q] => destruct (h !! q)
  | context [getitem ?a ?j] => destruct (getitem a j)
  | context [setitem ?a ?j ?v] => destruct (setitem a j v)
  end;
  inversion E; subst; try reflexivity;
  apply lookup_insert_ne; congruence.
Qed.

(** A call of [set_note] that raises has written nothing. *)
Lemma set_note_raise (s : Scale.t) (i : Z) (c : R) (ref : string)
    (h h' : store) (e : exn) :
  Scale.set_note s i c ref h = (h', Raise e) -> h' = h.
Proof.
  intros E. unfold Scale.set_note in E.
  unfold mbind, M_bind, load, lift, write, mret, M_ret in E.
  repeat match type of E with
  | context [String.eqb ?x ?y] => destruct (String.eqb x y)
  | context [h !! ?q] => destruct (h !! q)
  | context [getitem ?a ?j] => destruct (getitem a j)
  | context [setitem ?a ?j ?v] => destruct (setitem a j v)
  end;
  inversion E; reflexivity.
Qed.

(** ** Scale: construction *)

(** C4.  The constructor returns in two cases and raises [ValueError] in
    every other, leaving the store as it was (no array, no object); so
    does [Scale(notes=[100,200])] with an origin.
    Without [notes], [origin] and [rates] must both be given, and the notes
    are those of the cumulative builder; with [notes], [origin] and
    [rates] must both be absent, and the notes are a copy of the argument
    in storage that was not in use.  ([np.array] of an address that holds
    no array cannot be written in Python; the model raises there.) *)
Theorem Scale_init_two_modes (origin : option R) (rates : option (list R))
    (notes : option array_like) (h : store) :
  match notes, origin, rates with
  | None, Some o, Some r =>
      exists p : loc, h !! p = None /\
        Scale.init origin rates notes h
        = (<[p := scale_from_rates o r]> h, Return (Scale.mk p))
  | Some (PyList l), None, None =>
      exists p : loc, h !! p = None /\
        Scale.init origin rates notes h = (<[p := l]> h, Return (Scale.mk p))
  | Some (NdArray q), None, None =>
      match h !! q with
      | Some a =>
          exists p : loc, h !! p = None /\
            Scale.init origin rates notes h
            = (<[p := a]> h, Return (Scale.mk p))
      | None => Scale.init origin rates notes h = (h, Raise AttributeError)
      end
  | _, _, _ => Scale.init origin rates notes h = (h, Raise ValueError)
  end
  /\ (forall o : R,
        Scale.init (Some o) None (Some (PyList [100; 200])) h
        = (h, Raise ValueError)).
Proof.
  split; [|reflexivity].
  destruct notes as [[l|q]|], origin as [o|], rates as [r|];
    try reflexivity.
  - apply init_from_list.
  - destruct (h !! q) as [a|] eqn:Hq.
    + apply init_from_array. exact Hq.
    + unfold Scale.init, np_array, mbind, M_bind, load. rewrite Hq.
      reflexivity.
  - apply init_from_rates.
Qed.

(** ** Scale: set_note *)


(** C9.  With a [reference] other than ['current'], ['previous'] and
    ['origin'], [set_note] returns the scale itself and the store, hence
    every note of every scale, is what it was; no index is read. *)
Theorem set_note_unknown_reference (s : Scale.t) (i : Z) (c : R)
    (ref : string) (h : store) :
  ref <> "current"%string -> ref <> "previous"%string ->
  ref <> "origin"%string ->
  Scale.set_note s i c ref h = (h, Return s).
Proof.
  intros H1 H2 H3. unfold Scale.set_note.
  apply String.eqb_neq in H1, H2, H3. rewrite H1, H2, H3. reflexivity.
Qed.

(** The reference ['next'] is none of the three. *)
Lemma set_note_unknown_reference_next :
  "next"%string <> "current"%string
  /\ "next"%string <> "previous"%string
  /\ "next"%string <> "origin"%string
  /\ Scale.set_note (Scale.mk 0) 5 100 "next" {[ 0%nat := [440] ]}
     = ({[ 0%nat := [440] ]}, Return (Scale.mk 0)).
Proof.
  split; [discriminate|]. split; [discriminate|]. split; [discriminate|].
  apply (set_note_unknown_reference (Scale.mk 0) 5 100 "next"
           {[ 0%nat := [440] ]}); discriminate.
Defined.

(** With ['previous'] at index [0] the element read is [notes[-1]], which
    numpy resolves to the last note: on a scale that has a note the call
    returns, and the first note becomes the last one times the rate. *)
Lemma set_note_previous_wraps (s : Scale.t) (h : store) (a : list R)
    (c y : R) :
  h !! Scale.notes s = Some a -> last a = Some y ->
  Scale.set_note s 0 c "previous" h
  = (<[Scale.notes s := <[0%nat := y * cents_to_rate c]> a]> h, Return s).
Proof.
  intros Hs Hy.
  assert (Hlen : (0 < length a)%nat).
  { destruct a; [discriminate|simpl; lia]. }
  change 0%Z with (Z.of_nat 0).
  apply set_note_previous; [exact Hs|exact Hlen|].
  change (Z.of_nat 0 - 1)%Z with (-1)%Z.
  unfold getitem. rewrite np_index_last by exact Hlen.
  rewrite <- last_lookup, Hy. reflexivity.
Qed.

(** Where numpy finds no element, the call raises [IndexError] and nothing
    is written: ['previous'] at index [0] of a scale without notes, and
    any reference that reads [notes[index]] past the last note. *)
Lemma set_note_previous_empty (s : Scale.t) (h : store) (c : R) :
  h !! Scale.notes s = Some [] ->
  Scale.set_note s 0 c "previous" h = (h, Raise IndexError).
Proof.
  intros Hs. unfold Scale.set_note. pick_branch.
  rewrite (bind_return _ _ _ _ _ (load_allocated _ _ _ Hs)).
  apply bind_raise. reflexivity.
Qed.

Lemma np_index_past_end (len : nat) (i : Z) :
  (Z.of_nat len <= i)%Z -> np_index len i = Raise IndexError.
Proof.
  intros Hi. unfold np_index.
  destruct (Z.ltb_spec i (Z.of_nat len)); [lia|].
  destruct (Z.ltb_spec i 0); [lia|].
  rewrite !andb_false_r. reflexivity.
Qed.

Lemma set_note_current_past_end (s : Scale.t) (h : store) (a : list R)
    (i : Z) (c : R) :
  h !! Scale.notes s = Some a -> (Z.of_nat (length a) <= i)%Z ->
  Scale.set_note s i c "current" h = (h, Raise IndexError).
Proof.
  intros Hs Hi. unfold Scale.set_note. pick_branch.
  rewrite (bind_return _ _ _ _ _ (load_allocated _ _ _ Hs)).
  apply bind_raise. unfold lift, getitem.
  rewrite np_index_past_end by exact Hi. reflexivity.
Qed.

(** C1.  The call of the boundary scenario on the code:
    [Scale(notes=[440]).set_note(0, 100, 'previous')] raises nothing.  It
    returns the scale, and the notes are [440 * 2^(100/1200)], which is
    not [440]. *)
Theorem set_note_previous_at_index_0 (h : store) :
  exists (s : Scale.t) (h1 h2 : store),
    Scale.init None None (Some (PyList [440])) h = (h1, Return s)
    /\ h1 !! Scale.notes s = Some [440]
    /\ Scale.set_note s 0 100 "previous" h1 = (h2, Return s)
    /\ h2 !! Scale.notes s = Some [440 * Rpower 2 (100 / 1200)]
    /\ h2 !! Scale.notes s <> Some [440].
Proof.
  destruct (init_from_list h [440]) as (p & _ & E).
  set (h1 := <[p := [440]]> h) in *.
  assert (H1 : h1 !! p = Some [440]) by apply lookup_insert_eq.
  exists (Scale.mk p), h1, (<[p := [440 * cents_to_rate 100]]> h1).
  split; [exact E|]. split; [exact H1|].
  split; [apply (set_note_previous_wraps (Scale.mk p) h1 [440] 100 440 H1);
          reflexivity|].
  simpl Scale.notes. rewrite lookup_insert_eq.
  split; [reflexivity|].
  intros Heq. injection Heq as Heq.
  assert (1 < cents_to_rate 100) by (apply pow2_gt_1; lra).
  lra.
Qed.

(** ** Scale: copy *)

(** C8.  [s1.copy()] returns a scale whose notes live at another address
    and have the elements of the notes of [s1]; the notes of [s1] are not
    touched.  After that, whatever a call of [set_note] on the copy does,
    the notes of [s1] keep their elements, and whatever a call on [s1]
    does, the notes of the copy keep theirs. *)
Theorem copy_is_independent (s1 : Scale.t) (h : store) (a : list R) :
  h !! Scale.notes s1 = Some a ->
  exists (s2 : Scale.t) (h' : store),
    Scale.copy s1 h = (h', Return s2)
    /\ Scale.notes s2 <> Scale.notes s1
    /\ h !! Scale.notes s2 = None
    /\ h' = <[Scale.notes s2 := a]> h
    /\ h' !! Scale.notes s2 = Some a
    /\ h' !! Scale.notes s1 = Some a
    /\ (forall (i : Z) (c : R) (ref : string) (h'' : store)
               (r : outcome Scale.t),
          Scale.set_note s2 i c ref h' = (h'', r) ->
          h'' !! Scale.notes s1 = Some a)
    /\ (forall (i : Z) (c : R) (ref : string) (h'' : store)
               (r : outcome Scale.t),
          Scale.set_note s1 i c ref h' = (h'', r) ->
          h'' !! Scale.notes s2 = Some a)
    /\ (forall x : R, a !! 1%nat = Some x ->
          exists h'' : store,
            Scale.set_note s2 1 100 "current" h' = (h'', Return s2)
            /\ h'' !! Scale.notes s2
               = Some (<[1%nat := x * Rpower 2 (100 / 1200)]> a)
            /\ h'' !! Scale.notes s1 = Some a).
Proof.
  intros Hs.
  destruct (init_from_array h _ a Hs) as (p & Hp & E).
  assert (Hne : p <> Scale.notes s1) by congruence.
  exists (Scale.mk p), (<[p := a]> h). simpl Scale.notes.
  assert (H2 : <[p := a]> h !! p = Some a) by apply lookup_insert_eq.
  assert (H1 : <[p := a]> h !! Scale.notes s1 = Some a).
  { rewrite lookup_insert_ne by exact Hne. exact Hs. }
  repeat split; try assumption; try reflexivity.
  - intros i c ref h'' r Hrun.
    rewrite (set_note_frame _ _ _ _ _ _ _ _ Hrun); [exact H1|].
    simpl. congruence.
  - intros i c ref h'' r Hrun.
    rewrite (set_note_frame _ _ _ _ _ _ _ _ Hrun); [exact H2|exact Hne].
  - intros x Hx. eexists. change 1%Z with (Z.of_nat 1).
    split; [apply (set_note_current (Scale.mk p) _ a 1 100 x H2 Hx)|].
    simpl Scale.notes. split; [apply lookup_insert_eq|].
    rewrite lookup_insert_ne by exact Hne. exact H1.
Qed.

(** A copy of the scale with notes [100; 200; 400]. *)
Lemma copy_is_independent_scenario :
  let s1 := Scale.mk 0 in
  let h : store := {[ 0%nat := [100; 200; 400] ]} in
  h !! Scale.notes s1 = Some [100; 200; 400]
  /\ exists (s2 : Scale.t) (h' : store),
    Scale.copy s1 h = (h', Return s2)
    /\ Scale.notes s2 <> Scale.notes s1
    /\ h !! Scale.notes s2 = None
    /\ h' = <[Scale.notes s2 := [100; 200; 400]]> h
    /\ h' !! Scale.notes s2 = Some [100; 200; 400]
    /\ h' !! Scale.notes s1 = Some [100; 200; 400]
    /\ (forall (i : Z) (c : R) (ref : string) (h'' : store)
               (r : outcome Scale.t),
          Scale.set_note s2 i c ref h' = (h'', r) ->
          h'' !! Scale.notes s1 = Some [100; 200; 400])
    /\ (forall (i : Z) (c : R) (ref : string) (h'' : store)
               (r : outcome Scale.t),
          Scale.set_note s1 i c ref h' = (h'', r) ->
          h'' !! Scale.notes s2 = Some [100; 200; 400])
    /\ (forall x : R, [100; 200; 400] !! 1%nat = Some x ->
          exists h'' : store,
            Scale.set_note s2 1 100 "current" h' = (h'', Return s2)
            /\ h'' !! Scale.notes s2
               = Some (<[1%nat := x * Rpower 2 (100 / 1200)]> [100; 200; 400])
            /\ h'' !! Scale.notes s1 = Some [100; 200; 400]).
Proof.
  intros s1 h.
  split; [apply lookup_singleton_eq|].
  apply (copy_is_independent s1 h [100; 200; 400]).
  apply lookup_singleton_eq.
Defined.

(** ** Round trips *)

(** C2.  For a basis [B] and an origin [f > 0], [B.to_scale(f)] returns a
    scale, and [intervals()] of that scale returns the cents of [B],
    element by element, in real arithmetic. *)
Theorem to_scale_intervals_round_trip (B : ToneBasis.t) (f : R)
    (h : store) :
  0 < f ->
  exists (s : Scale.t) (h' : store),
    ToneBasis.to_scale B f h = (h', Return s)
    /\ h' !! Scale.notes s = Some (ToneBasis.scale B f)
    /\ Scale.rates s h' = (h', Return (ToneBasis.rates B))
    /\ Scale.intervals s h' = (h', Return (ToneBasis.intervals B)).
Proof.
  intros Hf.
  destruct (init_from_rates h f (ToneBasis.rates B)) as (p & _ & E).
  exists (Scale.mk p), (<[p := scale_from_rates f (ToneBasis.rates B)]> h).
  assert (Hp : <[p := scale_from_rates f (ToneBasis.rates B)]> h !! p
               = Some (scale_from_rates f (ToneBasis.rates B)))
    by apply lookup_insert_eq.
  assert (Hr : Scale.rates (Scale.mk p)
                 (<[p := scale_from_rates f (ToneBasis.rates B)]> h)
               = (<[p := scale_from_rates f (ToneBasis.rates B)]> h,
                  Return (ToneBasis.rates B))).
  { unfold Scale.rates. simpl Scale.notes.
    rewrite (bind_return _ _ _ _ _ (load_allocated _ _ _ Hp)).
    unfold mret, M_ret.
    rewrite consecutive_ratios_scale_from_rates; [reflexivity|lra|].
    apply ToneBasis_rates_nonzero. }
  split; [exact E|]. split; [exact Hp|]. split; [exact Hr|].
  unfold Scale.intervals. rewrite (bind_return _ _ _ _ _ Hr).
  unfold mret, M_ret, ToneBasis.rates.
  rewrite rates_to_cents_of_rates. reflexivity.
Qed.

(** Two whole tones and a semitone above 440. *)
Lemma to_scale_intervals_round_trip_440 :
  0 < 440 /\
  exists (s : Scale.t) (h' : store),
    ToneBasis.to_scale (ToneBasis.init [200; 200; 100]) 440 ∅
    = (h', Return s)
    /\ h' !! Scale.notes s
       = Some (ToneBasis.scale (ToneBasis.init [200; 200; 100]) 440)
    /\ Scale.rates s h'
       = (h', Return (ToneBasis.rates (ToneBasis.init [200; 200; 100])))
    /\ Scale.intervals s h'
       = (h', Return (ToneBasis.intervals (ToneBasis.init [200; 200; 100]))).
Proof.
  split; [lra|].
  apply (to_scale_intervals_round_trip (ToneBasis.init [200; 200; 100])
           440 ∅).
  lra.
Defined.

(** C10.  For a sequence of positive notes [x :: xs], the scale built
    from these notes reports as [rates()] the quotients
    [ns[i+1] / ns[i]], and [scale_from_rates] of the first note and these
    rates is the sequence of notes again, in real arithmetic. *)
Theorem rates_scale_from_rates_round_trip (x : R) (xs : list R)
    (h : store) :
  Forall (fun v => 0 < v) (x :: xs) ->
  exists (s : Scale.t) (h' : store) (rs : list R),
    Scale.init None None (Some (PyList (x :: xs))) h = (h', Return s)
    /\ Scale.rates s h' = (h', Return rs)
    /\ length rs = length xs
    /\ (forall (i : nat) (u v : R),
          (x :: xs) !! i = Some u -> (x :: xs) !! S i = Some v ->
          rs !! i = Some (v / u))
    /\ scale_from_rates x rs = x :: xs.
Proof.
  intros Hpos.
  destruct (init_from_list h (x :: xs)) as (p & _ & E).
  exists (Scale.mk p), (<[p := x :: xs]> h), (consecutive_ratios (x :: xs)).
  split; [exact E|]. split; [|split; [|split]].
  - unfold Scale.rates. simpl Scale.notes.
    assert (Hp : <[p := x :: xs]> h !! p = Some (x :: xs))
      by apply lookup_insert_eq.
    rewrite (bind_return _ _ _ _ _ (load_allocated _ _ _ Hp)). reflexivity.
  - rewrite consecutive_ratios_length. reflexivity.
  - intros i u v Hu Hv. rewrite consecutive_ratios_lookup, Hu, Hv.
    reflexivity.
  - apply scale_from_rates_consecutive_ratios.
    eapply Forall_impl; [exact Hpos|]. simpl. intros; lra.
Qed.

(** The notes [100; 200; 400]. *)
Lemma rates_scale_from_rates_round_trip_100_200_400 :
  Forall (fun v => 0 < v) [100; 200; 400] /\
  exists (s : Scale.t) (h' : store) (rs : list R),
    Scale.init None None (Some (PyList [100; 200; 400])) ∅ = (h', Return s)
    /\ Scale.rates s h' = (h', Return rs)
    /\ length rs = length [200; 400]
    /\ (forall (i : nat) (u v : R),
          [100; 200; 400] !! i = Some u -> [100; 200; 400] !! S i = Some v ->
          rs !! i = Some (v / u))
    /\ scale_from_rates 100 rs = [100; 200; 400].
Proof.
  assert (Hpos : Forall (fun v => 0 < v) [100; 200; 400]).
  { repeat constructor; lra. }
  split; [exact Hpos|].
  apply (rates_scale_from_rates_round_trip 100 [200; 400] ∅). exact Hpos.
Defined.

(** ** More on the cumulative builder *)

Lemma cumprod_from_app acc xs ys :
  cumprod_from acc (xs ++ ys)
  = cumprod_from acc xs ++ cumprod_from (running_product acc xs) ys.
Proof.
  revert acc. induction xs as [|x xs IH]; intros acc; simpl; [reflexivity|].
  rewrite IH. reflexivity.
Qed.

Lemma cumprod_from_last acc xs :
  last (acc :: cumprod_from acc xs) = Some (running_product acc xs).
Proof.
  revert acc. induction xs as [|x xs IH]; intros acc; [reflexivity|].
  simpl cumprod_from. rewrite last_cons_cons. apply IH.
Qed.

Lemma cumprod_from_scale k acc xs :
  cumprod_from (k * acc) xs = map (Rmult k) (cumprod_from acc xs).
Proof.
  revert acc. induction xs as [|x xs IH]; intros acc; simpl; [reflexivity|].
  rewrite <- IH. replace (k * acc * x) with (k * (acc * x)) by ring.
  reflexivity.
Qed.

Lemma cumprod_from_positive acc xs :
  0 < acc -> Forall (fun r => 0 < r) xs ->
  Forall (fun v => 0 < v) (cumprod_from acc xs).
Proof.
  intros Hacc Hxs. revert acc Hacc.
  induction Hxs as [|x xs Hx _ IH]; intros acc Hacc; simpl; constructor.
  - apply Rmult_lt_0_compat; assumption.
  - apply IH. apply Rmult_lt_0_compat; assumption.
Qed.


(** ** More on ToneBasis *)

Lemma running_product_rates acc cs :
  running_product acc (map pow2 (map (fun c => c / 1200) cs))
  = acc * pow2 (foldr Rplus 0 cs / 1200).
Proof.
  unfold running_product. revert acc.
  induction cs as [|c cs IH]; intros acc; simpl.
  - replace (0 / 1200) with 0 by lra. rewrite pow2_0. lra.
  - rewrite IH, Rmult_assoc, pow2_add. f_equal. f_equal. lra.
Qed.

(** X4.  [scale(origin)] of a basis with [n] intervals has [n+1] notes, and
    note [i] is the origin raised by the sum of the first [i] intervals:
    [origin * 2^((c1 + ... + ci)/1200)]. *)
Theorem ToneBasis_scale_note (B : ToneBasis.t) (f : R) (i : nat) :
  length (ToneBasis.scale B f) = S (length (ToneBasis.intervals B))
  /\ ToneBasis.scale B f !! i
     = if decide (i <= length (ToneBasis.intervals B))%nat
       then Some (f * Rpower 2
                   (foldr Rplus 0 (take i (ToneBasis.intervals B)) / 1200))
       else None.
Proof.
  unfold ToneBasis.scale.
  assert (Hlen : length (ToneBasis.rates B) = length (ToneBasis.intervals B)).
  { unfold ToneBasis.rates. rewrite !length_map. reflexivity. }
  split; [rewrite scale_from_rates_length, Hlen; reflexivity|].
  destruct (decide (i <= length (ToneBasis.intervals B))%nat) as [Hi|Hi].
  - rewrite scale_from_rates_lookup by (rewrite Hlen; exact Hi).
    f_equal. unfold ToneBasis.rates.
    rewrite !firstn_map. apply running_product_rates.
  - apply lookup_ge_None_2. rewrite scale_from_rates_length, Hlen. lia.
Qed.

(** X5.  Every rate of a basis is positive; it is above [1] exactly for a
    positive interval and below [1] exactly for a negative one. *)
Theorem ToneBasis_rates_sign (B : ToneBasis.t) (i : nat) (c : R) :
  ToneBasis.intervals B !! i = Some c ->
  exists r : R,
    ToneBasis.rates B !! i = Some r
    /\ 0 < r /\ (0 < c <-> 1 < r) /\ (c < 0 <-> r < 1)
    /\ (c = 0 <-> r = 1).
Proof.
  intros Hc. exists (pow2 (c / 1200)).
  assert (Hinc : forall x y, x < y -> pow2 x < pow2 y).
  { intros x y Hxy. unfold pow2. apply Rpower_lt; lra. }
  split.
  - unfold ToneBasis.rates. rewrite map_map.
    change (map (fun x => pow2 (x / 1200)) (ToneBasis.intervals B))
      with ((fun x => pow2 (x / 1200)) <$> ToneBasis.intervals B).
    rewrite list_lookup_fmap, Hc. reflexivity.
  - split; [apply pow2_pos|].
    destruct (Rtotal_order c 0) as [Hneg|[Hz|Hpos]].
    + assert (pow2 (c / 1200) < 1)
        by (rewrite <- pow2_0; apply Hinc; lra).
      repeat split; intros; try lra.
    + subst c. replace (0 / 1200) with 0 by lra. rewrite pow2_0.
      repeat split; intros; try lra.
    + assert (1 < pow2 (c / 1200))
        by (rewrite <- pow2_0; apply Hinc; lra).
      repeat split; intros; try lra.
Qed.

Lemma ToneBasis_rates_sign_descending :
  ToneBasis.intervals (ToneBasis.init [200; -100]) !! 1%nat = Some (-100)
  /\ exists r : R,
    ToneBasis.rates (ToneBasis.init [200; -100]) !! 1%nat = Some r
    /\ 0 < r /\ (0 < -100 <-> 1 < r) /\ (-100 < 0 <-> r < 1)
    /\ (-100 = 0 <-> r = 1).
Proof.
  split; [reflexivity|].
  apply (ToneBasis_rates_sign (ToneBasis.init [200; -100]) 1 (-100)).
  reflexivity.
Defined.

Lemma take_repeat_le {A} (x : A) (i n : nat) :
  (i <= n)%nat -> take i (repeat x n) = repeat x i.
Proof.
  revert n. induction i as [|i IH]; intros n Hi; [reflexivity|].
  destruct n as [|n]; [lia|]. simpl. rewrite IH by lia. reflexivity.
Qed.

Lemma equidistant_rates (n : Z) :
  (1 <= n)%Z ->
  exists B : ToneBasis.t,
    ToneBasis.equidistant n = Return B
    /\ ToneBasis.rates B = repeat (pow2 (1 / IZR n)) (Z.to_nat n).
Proof.
  intros Hn.
  assert (Hnz : IZR n <> 0) by (apply not_0_IZR; lia).
  unfold ToneBasis.equidistant.
  destruct (Z.eqb_spec n 0) as [?|_]; [lia|].
  destruct (Z.ltb_spec n 0) as [?|_]; [lia|].
  eexists. split; [reflexivity|].
  unfold ToneBasis.rates, ToneBasis.init, np_ones. simpl ToneBasis.intervals.
  rewrite !map_repeat. f_equal. f_equal. field. exact Hnz.
Qed.

(** X6.  For [n >= 1], the scale of [equidistant(n)] on an origin [f] has
    [n+1] notes, note [i] is [f * 2^(i/n)], and the last note is the
    octave [2 * f]. *)
Theorem equidistant_scale_octave (n : Z) (f : R) :
  (1 <= n)%Z ->
  exists B : ToneBasis.t,
    ToneBasis.equidistant n = Return B
    /\ length (ToneBasis.scale B f) = S (Z.to_nat n)
    /\ (forall i : nat,
          (i <= Z.to_nat n)%nat ->
          ToneBasis.scale B f !! i = Some (f * Rpower 2 (INR i / IZR n)))
    /\ last (ToneBasis.scale B f) = Some (2 * f).
Proof.
  intros Hn.
  assert (Hnz : IZR n <> 0) by (apply not_0_IZR; lia).
  destruct (equidistant_rates n Hn) as (B & HB & Hrates).
  exists B. split; [exact HB|]. unfold ToneBasis.scale. rewrite Hrates.
  split; [rewrite scale_from_rates_length, repeat_length; reflexivity|].
  split.
  - intros i Hi.
    rewrite scale_from_rates_lookup by (rewrite repeat_length; exact Hi).
    rewrite take_repeat_le by exact Hi.
    rewrite running_product_repeat_pow2. unfold pow2.
    replace (INR i * (1 / IZR n)) with (INR i / IZR n)
      by (field; exact Hnz).
    reflexivity.
  - unfold scale_from_rates, concatenate. simpl app. unfold cumprod.
    rewrite cumprod_from_last, running_product_repeat_pow2.
    rewrite INR_IZR_INZ, Z2Nat.id by lia.
    replace (IZR n * (1 / IZR n)) with 1 by (field; exact Hnz).
    rewrite pow2_1. f_equal. lra.
Qed.

Lemma equidistant_scale_octave_12 :
  (1 <= 12)%Z /\
  exists B : ToneBasis.t,
    ToneBasis.equidistant 12 = Return B
    /\ length (ToneBasis.scale B 440) = S (Z.to_nat 12)
    /\ (forall i : nat,
          (i <= Z.to_nat 12)%nat ->
          ToneBasis.scale B 440 !! i
          = Some (440 * Rpower 2 (INR i / IZR 12)))
    /\ last (ToneBasis.scale B 440) = Some (2 * 440).
Proof. split; [lia | apply (equidistant_scale_octave 12 440); lia]. Defined.

(** ** More on rates and intervals of a Scale *)

Lemma pow2_log2 r : 0 < r -> pow2 (log2 r) = r.
Proof.
  intros Hr. unfold pow2, log2, Rpower.
  replace (ln r / ln 2 * ln 2) with (ln r)
    by (field; pose proof ln2_pos; lra).
  apply exp_ln. exact Hr.
Qed.

Lemma log2_div x y : 0 < x -> 0 < y -> log2 (x / y) = log2 x - log2 y.
Proof.
  intros Hx Hy. unfold log2. change (x / y) with (x * / y).
  rewrite ln_mult by (try apply Rinv_0_lt_compat; assumption).
  rewrite ln_Rinv by exact Hy.
  field. pose proof ln2_pos. lra.
Qed.

Lemma consecutive_ratios_positive l :
  Forall (fun v => 0 < v) l -> Forall (fun r => 0 < r) (consecutive_ratios l).
Proof.
  intros Hl. destruct Hl as [|x l Hx Hl]; [constructor|].
  revert x Hx. induction Hl as [|y l Hy _ IH]; intros x Hx; [constructor|].
  rewrite consecutive_ratios_cons2. constructor.
  - apply Rdiv_lt_0_compat; assumption.
  - apply IH. exact Hy.
Qed.

Lemma rates_of_cents_of_rates rs :
  Forall (fun r => 0 < r) rs ->
  map pow2 (map (fun c => c / 1200) (rates_to_cents rs)) = rs.
Proof.
  intros Hrs. unfold rates_to_cents.
  induction Hrs as [|r rs Hr _ IH]; simpl; [reflexivity|].
  rewrite IH. f_equal.
  replace (1200 * log2 r / 1200) with (log2 r) by lra.
  apply pow2_log2. exact Hr.
Qed.

Lemma intervals_prefix_sum xs : forall (x y : R) (i : nat),
  Forall (fun v => 0 < v) (x :: xs) ->
  (x :: xs) !! i = Some y ->
  foldr Rplus 0 (take i (rates_to_cents (consecutive_ratios (x :: xs))))
  = 1200 * log2 (y / x).
Proof.
  induction xs as [|x' xs IH]; intros x y i Hpos Hy.
  - destruct i as [|i]; [|destruct i; discriminate].
    injection Hy as <-. inversion Hpos; subst. simpl.
    unfold log2. replace (x / x) with 1 by (field; lra).
    rewrite ln_1. lra.
  - inversion Hpos as [|? ? Hx Hpos']; subst.
    destruct i as [|i].
    + injection Hy as <-. simpl.
      unfold log2. replace (x / x) with 1 by (field; lra).
      rewrite ln_1. lra.
    + rewrite consecutive_ratios_cons2. simpl.
      change (foldr Rplus 0
                (take i (map (fun x0 => 1200 * log2 x0)
                           (consecutive_ratios (x' :: xs)))))
        with (foldr Rplus 0
                (take i (rates_to_cents (consecutive_ratios (x' :: xs))))).
      rewrite (IH x' y i Hpos' Hy).
      assert (Hx' : 0 < x') by (inversion Hpos'; assumption).
      assert (Hy' : 0 < y).
      { apply (Forall_lookup_1 _ _ _ _ Hpos' Hy). }
      rewrite !log2_div by assumption. lra.
Qed.

(** X7.  [rates()] and [intervals()] of a scale with notes [a] return without
    writing; each has one element less than [a] (none when [a] has no
    note or one).  Element [i] of the rates is [a[i+1] / a[i]] where
    [a[i]] is not zero, and element [i] of the intervals is
    [1200 * log2 (a[i+1] / a[i])] where both notes are positive. *)
Theorem Scale_rates_intervals_elements (s : Scale.t) (h : store)
    (a : list R) :
  h !! Scale.notes s = Some a ->
  exists rs cs : list R,
    Scale.rates s h = (h, Return rs)
    /\ Scale.intervals s h = (h, Return cs)
    /\ length rs = pred (length a)
    /\ length cs = pred (length a)
    /\ (forall (i : nat) (x y : R),
          a !! i = Some x -> a !! S i = Some y ->
          (x <> 0 -> rs !! i = Some (y / x))
          /\ (0 < x -> 0 < y ->
              cs !! i = Some (1200 * (ln (y / x) / ln 2)))).
Proof.
  intros Hs.
  assert (Hr : Scale.rates s h = (h, Return (consecutive_ratios a))).
  { unfold Scale.rates.
    rewrite (bind_return _ _ _ _ _ (load_allocated _ _ _ Hs)). reflexivity. }
  exists (consecutive_ratios a), (rates_to_cents (consecutive_ratios a)).
  split; [exact Hr|].
  split; [unfold Scale.intervals; rewrite (bind_return _ _ _ _ _ Hr);
          reflexivity|].
  split; [apply consecutive_ratios_length|].
  split; [unfold rates_to_cents;
          rewrite length_map; apply consecutive_ratios_length|].
  intros i x y Hx Hy.
  assert (E : consecutive_ratios a !! i = Some (y / x)).
  { rewrite consecutive_ratios_lookup, Hx, Hy. reflexivity. }
  split; [intros _; exact E|]. intros _ _.
  unfold rates_to_cents.
  change (map (fun x0 => 1200 * log2 x0) (consecutive_ratios a))
    with ((fun x0 => 1200 * log2 x0) <$> consecutive_ratios a).
  rewrite list_lookup_fmap, E. reflexivity.
Qed.

(** The scale with notes [100; 200; 400]: two rates, two intervals. *)
Lemma Scale_rates_intervals_elements_100_200_400 :
  let s := Scale.mk 0 in
  let h : store := {[ 0%nat := [100; 200; 400] ]} in
  h !! Scale.notes s = Some [100; 200; 400]
  /\ exists rs cs : list R,
    Scale.rates s h = (h, Return rs)
    /\ Scale.intervals s h = (h, Return cs)
    /\ length rs = pred (length [100; 200; 400])
    /\ length cs = pred (length [100; 200; 400])
    /\ (forall (i : nat) (x y : R),
          [100; 200; 400] !! i = Some x -> [100; 200; 400] !! S i = Some y ->
          (x <> 0 -> rs !! i = Some (y / x))
          /\ (0 < x -> 0 < y ->
              cs !! i = Some (1200 * (ln (y / x) / ln 2)))).
Proof.
  intros s h. split; [apply lookup_singleton_eq|].
  apply (Scale_rates_intervals_elements s h [100; 200; 400]).
  apply lookup_singleton_eq.
Defined.


(** X8.  From a scale with positive notes back to a basis: the rates of
    [ToneBasis(s.intervals())] are the rates of [s], and its [scale] on the
    first note of [s] is the sequence of notes of [s]. *)
Theorem intervals_to_basis_round_trip (s : Scale.t) (h : store)
    (x : R) (xs : list R) :
  h !! Scale.notes s = Some (x :: xs) ->
  Forall (fun v => 0 < v) (x :: xs) ->
  exists cs : list R,
    Scale.intervals s h = (h, Return cs)
    /\ Scale.rates s h = (h, Return (ToneBasis.rates (ToneBasis.init cs)))
    /\ ToneBasis.scale (ToneBasis.init cs) x = x :: xs.
Proof.
  intros Hs Hpos.
  assert (Hr : Scale.rates s h = (h, Return (consecutive_ratios (x :: xs)))).
  { unfold Scale.rates.
    rewrite (bind_return _ _ _ _ _ (load_allocated _ _ _ Hs)). reflexivity. }
  assert (Hback : ToneBasis.rates
                    (ToneBasis.init
                       (rates_to_cents (consecutive_ratios (x :: xs))))
                  = consecutive_ratios (x :: xs)).
  { unfold ToneBasis.rates, ToneBasis.init. simpl ToneBasis.intervals.
    apply rates_of_cents_of_rates, consecutive_ratios_positive, Hpos. }
  exists (rates_to_cents (consecutive_ratios (x :: xs))).
  split; [unfold Scale.intervals; rewrite (bind_return _ _ _ _ _ Hr);
          reflexivity|].
  split; [rewrite Hback; exact Hr|].
  unfold ToneBasis.scale. rewrite Hback.
  apply scale_from_rates_consecutive_ratios.
  eapply Forall_impl; [exact Hpos|]. simpl. intros; lra.
Qed.

Lemma intervals_to_basis_round_trip_100_150_300 :
  let s := Scale.mk 0 in
  let h : store := {[ 0%nat := [100; 150; 300] ]} in
  h !! Scale.notes s = Some [100; 150; 300]
  /\ Forall (fun v => 0 < v) [100; 150; 300]
  /\ exists cs : list R,
    Scale.intervals s h = (h, Return cs)
    /\ Scale.rates s h = (h, Return (ToneBasis.rates (ToneBasis.init cs)))
    /\ ToneBasis.scale (ToneBasis.init cs) 100 = [100; 150; 300].
Proof.
  intros s h.
  assert (Hpos : Forall (fun v => 0 < v) [100; 150; 300]).
  { repeat constructor; lra. }
  split; [apply lookup_singleton_eq|]. split; [exact Hpos|].
  apply (intervals_to_basis_round_trip s h 100 [150; 300]);
    [apply lookup_singleton_eq|exact Hpos].
Defined.

(** X9.  On a scale with positive notes, the first [i] intervals add up to
    the interval from the first note to note [i]:
    [1200 * log2 (notes[i] / notes[0])]. *)
Theorem intervals_add_up (s : Scale.t) (h : store) (x : R) (xs : list R)
    (i : nat) (y : R) :
  h !! Scale.notes s = Some (x :: xs) ->
  Forall (fun v => 0 < v) (x :: xs) ->
  (x :: xs) !! i = Some y ->
  exists cs : list R,
    Scale.intervals s h = (h, Return cs)
    /\ foldr Rplus 0 (take i cs) = 1200 * (ln (y / x) / ln 2).
Proof.
  intros Hs Hpos Hy.
  exists (rates_to_cents (consecutive_ratios (x :: xs))). split.
  - unfold Scale.intervals, Scale.rates.
    rewrite (bind_return _ _ h h (consecutive_ratios (x :: xs)));
      [reflexivity|].
    rewrite (bind_return _ _ _ _ _ (load_allocated _ _ _ Hs)). reflexivity.
  - apply (intervals_prefix_sum xs x y i Hpos Hy).
Qed.

Lemma intervals_add_up_100_150_300 :
  let s := Scale.mk 0 in
  let h : store := {[ 0%nat := [100; 150; 300] ]} in
  h !! Scale.notes s = Some [100; 150; 300]
  /\ Forall (fun v => 0 < v) [100; 150; 300]
  /\ [100; 150; 300] !! 2%nat = Some 300
  /\ exists cs : list R,
    Scale.intervals s h = (h, Return cs)
    /\ foldr Rplus 0 (take 2 cs) = 1200 * (ln (300 / 100) / ln 2).
Proof.
  intros s h.
  assert (Hpos : Forall (fun v => 0 < v) [100; 150; 300]).
  { repeat constructor; lra. }
  split; [apply lookup_singleton_eq|]. split; [exact Hpos|].
  split; [reflexivity|].
  apply (intervals_add_up s h 100 [150; 300] 2 300);
    [apply lookup_singleton_eq|exact Hpos|reflexivity].
Defined.

(** X10.  A copy reports the rates and the intervals of its source. *)
Theorem copy_same_rates_intervals (s : Scale.t) (h : store) (a : list R) :
  h !! Scale.notes s = Some a ->
  exists (s2 : Scale.t) (h' : store) (rs cs : list R),
    Scale.copy s h = (h', Return s2)
    /\ Scale.rates s h = (h, Return rs)
    /\ Scale.rates s2 h' = (h', Return rs)
    /\ Scale.intervals s h = (h, Return cs)
    /\ Scale.intervals s2 h' = (h', Return cs).
Proof.
  intros Hs.
  destruct (init_from_array h _ a Hs) as (p & Hp & E).
  assert (H2 : <[p := a]> h !! p = Some a) by apply lookup_insert_eq.
  assert (Hr : forall (t : Scale.t) (g : store),
             g !! Scale.notes t = Some a ->
             Scale.rates t g = (g, Return (consecutive_ratios a))).
  { intros t g Ht. unfold Scale.rates.
    rewrite (bind_return _ _ _ _ _ (load_allocated _ _ _ Ht)). reflexivity. }
  assert (Hi : forall (t : Scale.t) (g : store),
             g !! Scale.notes t = Some a ->
             Scale.intervals t g
             = (g, Return (rates_to_cents (consecutive_ratios a)))).
  { intros t g Ht. unfold Scale.intervals.
    rewrite (bind_return _ _ _ _ _ (Hr t g Ht)). reflexivity. }
  exists (Scale.mk p), (<[p := a]> h), (consecutive_ratios a),
         (rates_to_cents (consecutive_ratios a)).
  split; [exact E|].
  split; [apply Hr, Hs|]. split; [apply Hr, H2|].
  split; [apply Hi, Hs|apply Hi, H2].
Qed.

Lemma copy_same_rates_intervals_100_200_400 :
  let s := Scale.mk 0 in
  let h : store := {[ 0%nat := [100; 200; 400] ]} in
  h !! Scale.notes s = Some [100; 200; 400]
  /\ exists (s2 : Scale.t) (h' : store) (rs cs : list R),
    Scale.copy s h = (h', Return s2)
    /\ Scale.rates s h = (h, Return rs)
    /\ Scale.rates s2 h' = (h', Return rs)
    /\ Scale.intervals s h = (h, Return cs)
    /\ Scale.intervals s2 h' = (h', Return cs).
Proof.
  intros s h. split; [apply lookup_singleton_eq|].
  apply (copy_same_rates_intervals s h [100; 200; 400]).
  apply lookup_singleton_eq.
Defined.

(** ** More on set_note *)

Lemma np_index_inv (len : nat) (i : Z) (k : nat) :
  np_index len i = Return k ->
  (k < len)%nat
  /\ ((0 <= i < Z.of_nat len)%Z /\ k = Z.to_nat i
      \/ (- Z.of_nat len <= i < 0)%Z /\ k = Z.to_nat (Z.of_nat len + i)).
Proof.
  unfold np_index. intros E.
  destruct (Z.leb_spec 0 i), (Z.ltb_spec i (Z.of_nat len));
    simpl in E;
    try (injection E as <-; split; [lia|left; split; [lia|reflexivity]]);
    destruct (Z.leb_spec (- Z.of_nat len) i), (Z.ltb_spec i 0);
    simpl in E; try discriminate;
    try (injection E as <-; split; [lia|right; split; [lia|reflexivity]]).
Qed.

Lemma np_index_raise (len : nat) (i : Z) (e : exn) :
  np_index len i = Raise e -> e = IndexError.
Proof.
  unfold np_index. intros E.
  destruct ((0 <=? i)%Z && (i <? Z.of_nat len)%Z); [discriminate|].
  destruct ((- Z.of_nat len <=? i)%Z && (i <? 0)%Z); [discriminate|].
  injection E as <-. reflexivity.
Qed.

Lemma np_index_outside (len : nat) (i : Z) :
  (i < - Z.of_nat len \/ Z.of_nat len <= i)%Z ->
  np_index len i = Raise IndexError.
Proof.
  intros Hi. unfold np_index.
  destruct (Z.leb_spec 0 i), (Z.ltb_spec i (Z.of_nat len)); simpl; try lia;
    destruct (Z.leb_spec (- Z.of_nat len) i), (Z.ltb_spec i 0); simpl;
    try lia; reflexivity.
Qed.

Lemma np_index_from_end (len k : nat) :
  (1 <= k <= len)%nat -> np_index len (- Z.of_nat k) = Return (len - k)%nat.
Proof.
  intros Hk. unfold np_index.
  destruct (Z.leb_spec 0 (- Z.of_nat k)); [lia|]. simpl.
  destruct (Z.leb_spec (- Z.of_nat len) (- Z.of_nat k)); [|lia].
  destruct (Z.ltb_spec (- Z.of_nat k) 0); [|lia].
  simpl. f_equal. lia.
Qed.

Lemma getitem_inv (a : list R) (i : Z) (x : R) :
  getitem a i = Return x ->
  exists k : nat, np_index (length a) i = Return k /\ a !! k = Some x.
Proof.
  unfold getitem. intros E.
  destruct (np_index (length a) i) as [k|e]; [|discriminate].
  destruct (a !! k) as [y|] eqn:Hk; [|discriminate].
  injection E as <-. exists k. split; [reflexivity|exact Hk].
Qed.

Lemma getitem_raise (a : list R) (i : Z) (e : exn) :
  getitem a i = Raise e -> e = IndexError.
Proof.
  unfold getitem. intros E.
  destruct (np_index (length a) i) as [k|e'] eqn:Hk.
  - destruct (a !! k); [discriminate|]. injection E as <-. reflexivity.
  - injection E as <-. eapply np_index_raise. exact Hk.
Qed.

Lemma getitem_index (a : list R) (i : Z) (k : nat) (x : R) :
  np_index (length a) i = Return k -> a !! k = Some x ->
  getitem a i = Return x.
Proof. intros Hk Hx. unfold getitem. rewrite Hk, Hx. reflexivity. Qed.

Lemma setitem_index (a : list R) (i : Z) (k : nat) (v : R) :
  np_index (length a) i = Return k ->
  setitem a i v = Return (<[k := v]> a).
Proof. intros Hk. unfold setitem. rewrite Hk. reflexivity. Qed.

Lemma setitem_inv (a : list R) (i : Z) (v : R) (a' : list R) :
  setitem a i v = Return a' ->
  exists k : nat, np_index (length a) i = Return k /\ a' = <[k := v]> a.
Proof.
  unfold setitem. intros E.
  destruct (np_index (length a) i) as [k|e]; [|discriminate].
  injection E as <-. exists k. split; reflexivity.
Qed.

Lemma setitem_raise (a : list R) (i : Z) (v : R) (e : exn) :
  setitem a i v = Raise e -> e = IndexError.
Proof.
  unfold setitem. intros E.
  destruct (np_index (length a) i) as [k|e'] eqn:Hk; [discriminate|].
  injection E as <-. eapply np_index_raise. exact Hk.
Qed.

(** The body shared by the three branches of [set_note]: read
    [notes[src]], write the product at [notes[dst]]. *)
Lemma set_note_body_cases (s : Scale.t) (h : store) (a : list R)
    (src dst : Z) (rate : R) :
  h !! Scale.notes s = Some a ->
  let run :=
    (a ← load (Scale.notes s);
     x ← lift (getitem a src);
     a' ← lift (setitem a dst (x * rate));
     _ ← write (Scale.notes s) a';
     mret s) h in
  run = (h, Raise IndexError)
  \/ exists (j k : nat) (x : R),
       np_index (length a) src = Return j /\ a !! j = Some x
       /\ np_index (length a) dst = Return k
       /\ run = (<[Scale.notes s := <[k := x * rate]> a]> h, Return s).
Proof.
  intros Hs run. subst run.
  rewrite (bind_return _ _ _ _ _ (load_allocated _ _ _ Hs)).
  unfold mbind, M_bind, lift, write, mret, M_ret.
  destruct (getitem a src) as [x|e] eqn:Hget.
  - destruct (setitem a dst (x * rate)) as [a'|e] eqn:Hset.
    + right. apply getitem_inv in Hget as (j & Hj & Hx).
      apply setitem_inv in Hset as (k & Hk & ->).
      exists j, k, x. repeat split; assumption.
    + left. apply setitem_raise in Hset as ->. reflexivity.
  - left. apply getitem_raise in Hget as ->. reflexivity.
Qed.

(** What a call of [set_note] can do to a scale with notes [a]: nothing
    (unknown reference), raise [IndexError] with nothing written, or write
    one note [k] with the product of a note [j] and the rate. *)
Lemma set_note_cases (s : Scale.t) (h : store) (a : list R)
    (i : Z) (c : R) (ref : string) :
  h !! Scale.notes s = Some a ->
  Scale.set_note s i c ref h = (h, Return s)
  \/ Scale.set_note s i c ref h = (h, Raise IndexError)
  \/ exists (j k : nat) (x : R),
       a !! j = Some x /\ np_index (length a) i = Return k
       /\ Scale.set_note s i c ref h
          = (<[Scale.notes s := <[k := x * cents_to_rate c]> a]> h,
             Return s).
Proof.
  intros Hs. unfold Scale.set_note. cbv zeta.
  destruct (String.eqb ref "current");
    [|destruct (String.eqb ref "previous");
      [|destruct (String.eqb ref "origin"); [|left; reflexivity]]].
  - destruct (set_note_body_cases s h a i i (cents_to_rate c) Hs)
      as [E|(j & k & x & _ & Hx & Hk & E)].
    + right; left. exact E.
    + right; right. exists j, k, x. repeat split; assumption.
  - destruct (set_note_body_cases s h a (i - 1) i (cents_to_rate c) Hs)
      as [E|(j & k & x & _ & Hx & Hk & E)].
    + right; left. exact E.
    + right; right. exists j, k, x. repeat split; assumption.
  - destruct (set_note_body_cases s h a 0 i (cents_to_rate c) Hs)
      as [E|(j & k & x & _ & Hx & Hk & E)].
    + right; left. exact E.
    + right; right. exists j, k, x. repeat split; assumption.
Qed.

Lemma set_note_body_run (s : Scale.t) (h : store) (a : list R)
    (src dst : Z) (k : nat) (v rate : R) :
  h !! Scale.notes s = Some a ->
  getitem a src = Return v ->
  np_index (length a) dst = Return k ->
  (a ← load (Scale.notes s);
   x ← lift (getitem a src);
   a' ← lift (setitem a dst (x * rate));
   _ ← write (Scale.notes s) a';
   mret s) h
  = (<[Scale.notes s := <[k := v * rate]> a]> h, Return s).
Proof.
  intros Hs Hget Hk.
  rewrite (bind_return _ _ _ _ _ (load_allocated _ _ _ Hs)).
  unfold mbind, M_bind, lift, write, mret, M_ret.
  rewrite Hget, (setitem_index _ _ _ _ Hk). reflexivity.
Qed.

Lemma cents_to_rate_add c1 c2 :
  cents_to_rate c1 * cents_to_rate c2 = cents_to_rate (c1 + c2).
Proof.
  unfold cents_to_rate. rewrite pow2_add. f_equal. lra.
Qed.


(** X13.  With one of the three references, an index outside
    [-len <= index < len] raises [IndexError] and nothing is written. *)
Theorem set_note_index_out_of_range (s : Scale.t) (h : store) (a : list R)
    (i : Z) (c : R) (ref : string) :
  h !! Scale.notes s = Some a ->
  (i < - Z.of_nat (length a) \/ Z.of_nat (length a) <= i)%Z ->
  ref = "current"%string \/ ref = "previous"%string
  \/ ref = "origin"%string ->
  Scale.set_note s i c ref h = (h, Raise IndexError).
Proof.
  intros Hs Hi Href.
  pose proof (np_index_outside (length a) i Hi) as Hout.
  assert (Hbody : forall src : Z,
    (a ← load (Scale.notes s);
     x ← lift (getitem a src);
     a' ← lift (setitem a i (x * cents_to_rate c));
     _ ← write (Scale.notes s) a';
     mret s) h = (h, Raise IndexError)).
  { intros src.
    destruct (set_note_body_cases s h a src i (cents_to_rate c) Hs)
      as [E|(j & k & x & _ & _ & Hk & _)]; [exact E|].
    rewrite Hout in Hk. discriminate. }
  unfold Scale.set_note.
  destruct Href as [->|[->| ->]]; pick_branch; apply Hbody.
Qed.

Lemma set_note_index_out_of_range_3_of_3 :
  let s := Scale.mk 0 in
  let h : store := {[ 0%nat := [100; 200; 400] ]} in
  h !! Scale.notes s = Some [100; 200; 400]
  /\ (3 < - Z.of_nat (length [100; 200; 400])
      \/ Z.of_nat (length [100; 200; 400]) <= 3)%Z
  /\ Scale.set_note s 3 100 "previous" h = (h, Raise IndexError).
Proof.
  intros s h. split; [apply lookup_singleton_eq|].
  split; [right; simpl; lia|].
  apply (set_note_index_out_of_range s h [100; 200; 400] 3 100 "previous");
    [apply lookup_singleton_eq|right; simpl; lia|right; left; reflexivity].
Defined.


(** X15.  The first note addressed from the end, as index [-len], has no
    predecessor for ['previous']: the call raises [IndexError] and nothing
    is written (the same note addressed as index [0] wraps to the last
    note instead). *)
Theorem set_note_previous_before_first (s : Scale.t) (h : store)
    (a : list R) (c : R) :
  h !! Scale.notes s = Some a ->
  Scale.set_note s (- Z.of_nat (length a)) c "previous" h
  = (h, Raise IndexError).
Proof.
  intros Hs. unfold Scale.set_note. pick_branch.
  rewrite (bind_return _ _ _ _ _ (load_allocated _ _ _ Hs)).
  apply bind_raise. unfold lift, getitem.
  rewrite np_index_outside by lia. reflexivity.
Qed.

Lemma set_note_previous_before_first_of_3 :
  let s := Scale.mk 0 in
  let h : store := {[ 0%nat := [100; 200; 400] ]} in
  h !! Scale.notes s = Some [100; 200; 400]
  /\ Scale.set_note s (- Z.of_nat (length [100; 200; 400])) 100 "previous" h
     = (h, Raise IndexError).
Proof.
  intros s h. split; [apply lookup_singleton_eq|].
  apply (set_note_previous_before_first s h [100; 200; 400] 100).
  apply lookup_singleton_eq.
Defined.


Lemma Scale_intervals_run (s : Scale.t) (g : store) (b : list R) :
  g !! Scale.notes s = Some b ->
  Scale.intervals s g = (g, Return (rates_to_cents (consecutive_ratios b))).
Proof.
  intros Hg.
  assert (Hr : Scale.rates s g = (g, Return (consecutive_ratios b))).
  { unfold Scale.rates.
    rewrite (bind_return _ _ _ _ _ (load_allocated _ _ _ Hg)). reflexivity. }
  unfold Scale.intervals. rewrite (bind_return _ _ _ _ _ Hr). reflexivity.
Qed.


(** X19.  Repeating a ['previous'] or an ['origin'] edit at an index
    [1 <= i < len] changes nothing more: the second call returns and
    leaves the store of the first. *)
Theorem set_note_previous_origin_idempotent (s : Scale.t) (h : store)
    (a : list R) (i : nat) (c : R) (ref : string) :
  h !! Scale.notes s = Some a ->
  (1 <= i < length a)%nat ->
  ref = "previous"%string \/ ref = "origin"%string ->
  exists h1 : store,
    Scale.set_note s (Z.of_nat i) c ref h = (h1, Return s)
    /\ Scale.set_note s (Z.of_nat i) c ref h1 = (h1, Return s).
Proof.
  intros Hs Hi Href.
  assert (Hsrc : exists (j : nat) (y : R), (j < i)%nat /\ a !! j = Some y
            /\ forall (g : store) (b : list R),
                 g !! Scale.notes s = Some b -> length b = length a ->
                 b !! j = Some y ->
                 Scale.set_note s (Z.of_nat i) c ref g
                 = (<[Scale.notes s := <[i := y * cents_to_rate c]> b]> g,
                    Return s)).
  { destruct Href as [-> | ->].
    - destruct (lookup_lt_is_Some_2 a (i - 1)) as [y Hy]; [lia|].
      exists (i - 1)%nat, y. split; [lia|]. split; [exact Hy|].
      intros g b Hg Hlen Hb. apply set_note_previous; [exact Hg|lia|].
      replace (Z.of_nat i - 1)%Z with (Z.of_nat (i - 1)) by lia.
      apply getitem_position. exact Hb.
    - destruct (lookup_lt_is_Some_2 a 0) as [y Hy]; [lia|].
      exists 0%nat, y. split; [lia|]. split; [exact Hy|].
      intros g b Hg Hlen Hb. apply set_note_origin; [exact Hg|lia|exact Hb]. }
  destruct Hsrc as (j & y & Hj & Hy & Hrun).
  set (a1 := <[i := y * cents_to_rate c]> a).
  exists (<[Scale.notes s := a1]> h).
  split; [apply (Hrun h a Hs eq_refl Hy)|].
  rewrite (Hrun (<[Scale.notes s := a1]> h) a1).
  - unfold a1. rewrite list_insert_insert_eq, insert_insert_eq. reflexivity.
  - apply lookup_insert_eq.
  - unfold a1. apply length_insert.
  - unfold a1. rewrite list_lookup_insert_ne by lia. exact Hy.
Qed.

Lemma set_note_previous_origin_idempotent_fifth :
  let s := Scale.mk 0 in
  let h : store := {[ 0%nat := [100; 200; 400] ]} in
  h !! Scale.notes s = Some [100; 200; 400]
  /\ (1 <= 1 < length [100; 200; 400])%nat
  /\ exists h1 : store,
    Scale.set_note s (Z.of_nat 1) 700 "origin" h = (h1, Return s)
    /\ Scale.set_note s (Z.of_nat 1) 700 "origin" h1 = (h1, Return s).
Proof.
  intros s h. split; [apply lookup_singleton_eq|]. split; [simpl; lia|].
  apply (set_note_previous_origin_idempotent s h [100; 200; 400] 1 700
           "origin");
    [apply lookup_singleton_eq|simpl; lia|right; reflexivity].
Defined.

(** ** More on construction *)

(** X20.  Constructing a scale leaves every array of the store as it is,
    whether the constructor returns or raises. *)
Theorem Scale_init_keeps_arrays (origin : option R)
    (rates : option (list R)) (notes : option array_like)
    (h h' : store) (r : outcome Scale.t) (p : loc) (b : list R) :
  Scale.init origin rates notes h = (h', r) ->
  h !! p = Some b ->
  h' !! p = Some b.
Proof.
  intros Hrun Hp.
  assert (Hfresh : forall (q : loc) (v : list R),
            h !! q = None -> <[q := v]> h !! p = Some b).
  { intros q v Hq. rewrite lookup_insert_ne by congruence. exact Hp. }
  destruct notes as [[l|q]|], origin as [o|], rates as [rs|];
    try (injection Hrun as <- _; exact Hp).
  - destruct (init_from_list h l) as (q & Hq & E).
    rewrite E in Hrun. injection Hrun as <- _. apply Hfresh, Hq.
  - destruct (h !! q) as [v|] eqn:Hv.
    + destruct (init_from_array h q v Hv) as (q' & Hq' & E).
      rewrite E in Hrun. injection Hrun as <- _. apply Hfresh, Hq'.
    + unfold Scale.init, np_array, mbind, M_bind, load in Hrun.
      rewrite Hv in Hrun. injection Hrun as <- _. exact Hp.
  - destruct (init_from_rates h o rs) as (q & Hq & E).
    rewrite E in Hrun. injection Hrun as <- _. apply Hfresh, Hq.
Qed.

Lemma Scale_init_keeps_arrays_440 :
  let h : store := {[ 0%nat := [100; 200; 400] ]} in
  let run := Scale.init (Some 440) (Some [2]) None h in
  run = (run.1, run.2)
  /\ h !! 0%nat = Some [100; 200; 400]
  /\ run.1 !! 0%nat = Some [100; 200; 400].
Proof.
  intros h run.
  assert (E : run = (run.1, run.2)) by (destruct run; reflexivity).
  split; [exact E|]. split; [apply lookup_singleton_eq|].
  apply (Scale_init_keeps_arrays (Some 440) (Some [2]) None h run.1 run.2
           0%nat [100; 200; 400] E).
  apply lookup_singleton_eq.
Defined.


(** X22.  On a positive origin, [to_scale] returns a scale with one note more
    than the basis has intervals, all of them positive, whatever the
    signs of the intervals. *)
Theorem to_scale_positive_notes (B : ToneBasis.t) (f : R) (h : store) :
  0 < f ->
  exists (s : Scale.t) (h' : store) (a : list R),
    ToneBasis.to_scale B f h = (h', Return s)
    /\ h' !! Scale.notes s = Some a
    /\ length a = S (length (ToneBasis.intervals B))
    /\ Forall (fun v => 0 < v) a.
Proof.
  intros Hf.
  destruct (init_from_rates h f (ToneBasis.rates B)) as (p & _ & E).
  exists (Scale.mk p), (<[p := scale_from_rates f (ToneBasis.rates B)]> h),
         (scale_from_rates f (ToneBasis.rates B)).
  split; [exact E|]. split; [apply lookup_insert_eq|].
  split.
  - rewrite scale_from_rates_length. unfold ToneBasis.rates.
    rewrite !length_map. reflexivity.
  - unfold scale_from_rates, concatenate. simpl.
    constructor; [exact Hf|]. apply cumprod_from_positive; [exact Hf|].
    unfold ToneBasis.rates.
    induction (ToneBasis.intervals B) as [|c cs IH]; simpl; constructor;
      [apply pow2_pos|exact IH].
Qed.

Lemma to_scale_positive_notes_descending :
  0 < 440 /\
  exists (s : Scale.t) (h' : store) (a : list R),
    ToneBasis.to_scale (ToneBasis.init [-200; 700; -1200]) 440 ∅
    = (h', Return s)
    /\ h' !! Scale.notes s = Some a
    /\ length a
       = S (length (ToneBasis.intervals (ToneBasis.init [-200; 700; -1200])))
    /\ Forall (fun v => 0 < v) a.
Proof.
  split; [lra|].
  apply (to_scale_positive_notes (ToneBasis.init [-200; 700; -1200]) 440 ∅).
  lra.
Defined.

(** ** Typed arrays: the cumulative builder *)

Ltac int64_bounds :=
  unfold Typed.wrap64, Typed.in_int64 in *;
  change (2 ^ 63)%Z with 9223372036854775808%Z in *;
  change (2 ^ 64)%Z with 18446744073709551616%Z in *.

Lemma wrap64_in_range (z : Z) : Typed.in_int64 (Typed.wrap64 z).
Proof.
  int64_bounds.
  pose proof (Z.mod_pos_bound (z + 9223372036854775808)
                18446744073709551616 ltac:(lia)).
  lia.
Qed.








(** The builder on any other pair of arguments is the builder on
    float64. *)
Lemma scale_from_rates_float64 (f : Typed.pynum) (rates : Typed.ndarray) :
  match f, rates with
  | Typed.PyInt _, Typed.IntArr _ => True
  | _, _ =>
      Typed.scale_from_rates f rates
      = Typed.FloatArr
          (scale_from_rates (Typed.value f) (Typed.values rates))
  end.
Proof. destruct f as [z|x], rates as [zs|l]; try exact I; reflexivity. Qed.






(** ** Typed arrays: running computations *)

Lemma typed_alloc_fresh (h : gmap nat Typed.ndarray) (a : Typed.ndarray) :
  exists p : loc,
    h !! p = None /\ Typed.alloc a h = (<[p := a]> h, Return p).
Proof.
  exists (fresh (dom h)). split; [|reflexivity].
  apply not_elem_of_dom. apply is_fresh.
Qed.

Lemma typed_bind_return {A B} (m : Typed.TM A) (f : A -> Typed.TM B)
    (h h' : gmap nat Typed.ndarray) (a : A) :
  m h = (h', Return a) -> (m ≫= f) h = f a h'.
Proof. intros E. unfold mbind, Typed.TM_bind. rewrite E. reflexivity. Qed.

Lemma typed_bind_raise {A B} (m : Typed.TM A) (f : A -> Typed.TM B)
    (h h' : gmap nat Typed.ndarray) (e : exn) :
  m h = (h', Raise e) -> (m ≫= f) h = (h', Raise e).
Proof. intros E. unfold mbind, Typed.TM_bind. rewrite E. reflexivity. Qed.

Lemma typed_load_allocated (h : gmap nat Typed.ndarray) (p : loc)
    (a : Typed.ndarray) :
  h !! p = Some a -> Typed.load p h = (h, Return a).
Proof. intros E. unfold Typed.load. rewrite E. reflexivity. Qed.

Lemma typed_init_from_notes (h : gmap nat Typed.ndarray)
    (x : Typed.array_like) (a : Typed.ndarray) :
  Typed.asarray x h = (h, Return a) ->
  exists p : loc, h !! p = None /\
    Typed.Scale.init None None (Some x) h
    = (<[p := a]> h, Return (Typed.Scale.mk p)).
Proof.
  intros Hx. destruct (typed_alloc_fresh h a) as (p & Hp & E).
  exists p. split; [exact Hp|].
  assert (E' : Typed.np_array x h = (<[p := a]> h, Return p)).
  { unfold Typed.np_array. rewrite (typed_bind_return _ _ _ _ _ Hx).
    exact E. }
  unfold Typed.Scale.init. rewrite (typed_bind_return _ _ _ _ _ E').
  reflexivity.
Qed.

Lemma typed_init_from_rates (h : gmap nat Typed.ndarray) (o : Typed.pynum)
    (r : Typed.array_like) (a : Typed.ndarray) :
  Typed.asarray r h = (h, Return a) ->
  exists p : loc, h !! p = None /\
    Typed.Scale.init (Some o) (Some r) None h
    = (<[p := Typed.scale_from_rates o a]> h, Return (Typed.Scale.mk p)).
Proof.
  intros Hr.
  destruct (typed_alloc_fresh h (Typed.scale_from_rates o a))
    as (p & Hp & E).
  exists p. split; [exact Hp|].
  unfold Typed.Scale.init. rewrite (typed_bind_return _ _ _ _ _ Hr).
  rewrite (typed_bind_return _ _ _ _ _ E). reflexivity.
Qed.

Lemma typed_getitem_index (a : Typed.ndarray) (i : Z) (k : nat) (x : R) :
  np_index (Typed.size a) i = Return k -> Typed.values a !! k = Some x ->
  Typed.getitem a i = Return x.
Proof. intros Hk Hx. unfold Typed.getitem. rewrite Hk, Hx. reflexivity. Qed.

Lemma typed_size_values (a : Typed.ndarray) :
  length (Typed.values a) = Typed.size a.
Proof. destruct a; simpl; [apply length_map|reflexivity]. Qed.

(** The body shared by the three branches of [set_note]. *)
Lemma typed_set_note_body_run (s : Typed.Scale.t)
    (h : gmap nat Typed.ndarray) (a a' : Typed.ndarray)
    (src dst : Z) (v rate : R) :
  h !! Typed.Scale.notes s = Some a ->
  Typed.getitem a src = Return v ->
  Typed.setitem a dst (v * rate) = Return a' ->
  (a ← Typed.load (Typed.Scale.notes s);
   x ← Typed.lift (Typed.getitem a src);
   a' ← Typed.lift (Typed.setitem a dst (x * rate));
   _ ← Typed.write (Typed.Scale.notes s) a';
   mret s) h
  = (<[Typed.Scale.notes s := a']> h, Return s).
Proof.
  intros Hs Hget Hset.
  rewrite (typed_bind_return _ _ _ _ _ (typed_load_allocated _ _ _ Hs)).
  unfold mbind, Typed.TM_bind, Typed.lift, Typed.write, mret, Typed.TM_ret.
  rewrite Hget, Hset. reflexivity.
Qed.

(** ** Cutting a float to an integer *)

Lemma trunc_nonneg (x : R) (z : Z) :
  0 <= x -> IZR z <= x < IZR z + 1 -> Typed.trunc x = z.
Proof.
  intros Hx Hz. unfold Typed.trunc.
  destruct (Rle_dec 0 x) as [_|Hn]; [|contradiction].
  symmetry. apply Int_part_spec. lra.
Qed.

Lemma astype_int64_nonneg (x : R) (z : Z) :
  0 <= x -> IZR z <= x < IZR z + 1 -> Typed.in_int64 z ->
  Typed.astype_int64 x = z.
Proof.
  intros Hx Hz Hr. unfold Typed.astype_int64.
  rewrite (trunc_nonneg x z Hx Hz).
  unfold Typed.in_int64 in Hr.
  destruct (Z.leb_spec (- 2 ^ 63) z); [|lia].
  destruct (Z.ltb_spec z (2 ^ 63)); [|lia].
  reflexivity.
Qed.

Lemma astype_int64_IZR (z : Z) :
  Typed.in_int64 z -> Typed.astype_int64 (IZR z) = z.
Proof.
  intros Hr.
  assert (Hcut : Typed.trunc (IZR z) = z).
  { unfold Typed.trunc. destruct (Rle_dec 0 (IZR z)) as [_|_].
    - symmetry. apply Int_part_spec. lra.
    - rewrite <- opp_IZR.
      rewrite <- (Int_part_spec (IZR (- z)) (- z)) by lra. lia. }
  unfold Typed.astype_int64. rewrite Hcut.
  unfold Typed.in_int64 in Hr.
  destruct (Z.leb_spec (- 2 ^ 63) z); [|lia].
  destruct (Z.ltb_spec z (2 ^ 63)); [|lia].
  reflexivity.
Qed.

(** [2^(1/n)] lies between two numbers whose [n]-th powers enclose 2. *)
Lemma pow2_root_bounds (n : nat) (lo hi : R) :
  (0 < n)%nat -> 0 <= lo -> 0 <= hi -> lo ^ n < 2 -> 2 < hi ^ n ->
  lo < pow2 (1 / INR n) < hi.
Proof.
  intros Hn Hlo Hhi Hl Hh.
  assert (Hnz : INR n <> 0) by (apply not_0_INR; lia).
  assert (Hpos : 0 < pow2 (1 / INR n)) by apply pow2_pos.
  assert (Hpow : pow2 (1 / INR n) ^ n = 2).
  { rewrite <- Rpower_pow by exact Hpos. unfold pow2.
    rewrite Rpower_mult.
    replace (1 / INR n * INR n) with 1 by (field; exact Hnz).
    apply Rpower_1. lra. }
  split.
  - destruct (Rlt_le_dec lo (pow2 (1 / INR n))) as [H|H]; [exact H|].
    pose proof (pow_incr (pow2 (1 / INR n)) lo n (conj (Rlt_le _ _ Hpos) H)).
    lra.
  - destruct (Rlt_le_dec (pow2 (1 / INR n)) hi) as [H|H]; [exact H|].
    pose proof (pow_incr hi (pow2 (1 / INR n)) n (conj Hhi H)).
    lra.
Qed.

(** A semitone, [2^(100/1200)], lies between [1.055] and [1.06]. *)
Lemma cents_to_rate_100_bounds :
  211 / 200 < cents_to_rate 100 < 212 / 200.
Proof.
  unfold cents_to_rate.
  replace (100 / 1200) with (1 / INR 12) by (simpl; lra).
  apply pow2_root_bounds; [lia|lra|lra| |]; simpl; lra.
Qed.

(** ** Typed arrays: set_note *)

(** C5.  The scale of the scenario, built from the Python integers
    [100], [200] and [400], has int64 notes.  On it
    [set_note(1, 100, 'current')] returns the scale and stores [211]:
    the product [200 * 2^(100/1200)] is cut to an integer when it is
    assigned. *)
Theorem set_note_int64_truncates (h : gmap nat Typed.ndarray) :
  exists (s : Typed.Scale.t) (h1 h2 : gmap nat Typed.ndarray),
    Typed.Scale.init None None
      (Some (Typed.PyList [Typed.PyInt 100; Typed.PyInt 200;
                           Typed.PyInt 400])) h
    = (h1, Return s)
    /\ h1 !! Typed.Scale.notes s = Some (Typed.IntArr [100; 200; 400]%Z)
    /\ Typed.Scale.set_note s 1 100 "current" h1 = (h2, Return s)
    /\ h2 !! Typed.Scale.notes s = Some (Typed.IntArr [100; 211; 400]%Z)
    /\ IZR 211 <> 200 * Rpower 2 (100 / 1200).
Proof.
  pose proof cents_to_rate_100_bounds as Hb.
  destruct (typed_init_from_notes h
              (Typed.PyList [Typed.PyInt 100; Typed.PyInt 200;
                             Typed.PyInt 400])
              (Typed.IntArr [100; 200; 400]%Z) eq_refl) as (p & _ & E).
  set (h1 := <[p := Typed.IntArr [100; 200; 400]%Z]> h) in *.
  assert (H1 : h1 !! p = Some (Typed.IntArr [100; 200; 400]%Z))
    by apply lookup_insert_eq.
  exists (Typed.Scale.mk p), h1,
         (<[p := Typed.IntArr [100; 211; 400]%Z]> h1).
  split; [exact E|]. split; [exact H1|].
  split; [|split; [apply lookup_insert_eq|]].
  - unfold Typed.Scale.set_note. pick_branch.
    apply (typed_set_note_body_run (Typed.Scale.mk p) h1 _ _ 1 1 200 _ H1);
      [reflexivity|].
    unfold Typed.setitem. simpl np_index. cbv iota. unfold Typed.assign.
    rewrite (astype_int64_nonneg (200 * cents_to_rate 100) 211);
      [reflexivity|lra|lra|unfold Typed.in_int64; lia].
  - change (Rpower 2 (100 / 1200)) with (cents_to_rate 100). lra.
Qed.

Lemma typed_setitem_index (a : Typed.ndarray) (i : Z) (k : nat) (v : R) :
  np_index (Typed.size a) i = Return k ->
  Typed.setitem a i v = Return (Typed.assign a k v).
Proof. intros Hk. unfold Typed.setitem. rewrite Hk. reflexivity. Qed.

Lemma typed_getitem_inv (a : Typed.ndarray) (i : Z) (x : R) :
  Typed.getitem a i = Return x ->
  exists k : nat,
    np_index (Typed.size a) i = Return k /\ Typed.values a !! k = Some x.
Proof.
  unfold Typed.getitem. intros E.
  destruct (np_index (Typed.size a) i) as [k|e]; [|discriminate].
  destruct (Typed.values a !! k) as [y|] eqn:Hk; [|discriminate].
  injection E as <-. exists k. split; [reflexivity|exact Hk].
Qed.

Lemma typed_getitem_raise (a : Typed.ndarray) (i : Z) (e : exn) :
  Typed.getitem a i = Raise e -> e = IndexError.
Proof.
  unfold Typed.getitem. intros E.
  destruct (np_index (Typed.size a) i) as [k|e'] eqn:Hk.
  - destruct (Typed.values a !! k); [discriminate|].
    injection E as <-. reflexivity.
  - injection E as <-. eapply np_index_raise. exact Hk.
Qed.

Lemma typed_setitem_inv (a : Typed.ndarray) (i : Z) (v : R)
    (a' : Typed.ndarray) :
  Typed.setitem a i v = Return a' ->
  exists k : nat,
    np_index (Typed.size a) i = Return k /\ a' = Typed.assign a k v.
Proof.
  unfold Typed.setitem. intros E.
  destruct (np_index (Typed.size a) i) as [k|e]; [|discriminate].
  injection E as <-. exists k. split; reflexivity.
Qed.

Lemma typed_setitem_raise (a : Typed.ndarray) (i : Z) (v : R) (e : exn) :
  Typed.setitem a i v = Raise e -> e = IndexError.
Proof.
  unfold Typed.setitem. intros E.
  destruct (np_index (Typed.size a) i) as [k|e'] eqn:Hk; [discriminate|].
  injection E as <-. eapply np_index_raise. exact Hk.
Qed.

Lemma typed_assign_size (a : Typed.ndarray) (k : nat) (v : R) :
  Typed.size (Typed.assign a k v) = Typed.size a.
Proof. destruct a; simpl; apply length_insert. Qed.

Lemma typed_set_note_body_cases (s : Typed.Scale.t)
    (h : gmap nat Typed.ndarray) (a : Typed.ndarray)
    (src dst : Z) (rate : R) :
  h !! Typed.Scale.notes s = Some a ->
  let run :=
    (a ← Typed.load (Typed.Scale.notes s);
     x ← Typed.lift (Typed.getitem a src);
     a' ← Typed.lift (Typed.setitem a dst (x * rate));
     _ ← Typed.write (Typed.Scale.notes s) a';
     mret s) h in
  run = (h, Raise IndexError)
  \/ exists (j k : nat) (x : R),
       np_index (Typed.size a) src = Return j
       /\ Typed.values a !! j = Some x
       /\ np_index (Typed.size a) dst = Return k
       /\ run = (<[Typed.Scale.notes s := Typed.assign a k (x * rate)]> h,
                 Return s).
Proof.
  intros Hs run. subst run.
  rewrite (typed_bind_return _ _ _ _ _ (typed_load_allocated _ _ _ Hs)).
  unfold mbind, Typed.TM_bind, Typed.lift, Typed.write, mret, Typed.TM_ret.
  destruct (Typed.getitem a src) as [x|e] eqn:Hget.
  - destruct (Typed.setitem a dst (x * rate)) as [a'|e] eqn:Hset.
    + right. apply typed_getitem_inv in Hget as (j & Hj & Hx).
      apply typed_setitem_inv in Hset as (k & Hk & ->).
      exists j, k, x. repeat split; assumption.
    + left. apply typed_setitem_raise in Hset as ->. reflexivity.
  - left. apply typed_getitem_raise in Hget as ->. reflexivity.
Qed.

Lemma typed_set_note_cases (s : Typed.Scale.t)
    (h : gmap nat Typed.ndarray) (a : Typed.ndarray)
    (i : Z) (c : R) (ref : string) :
  h !! Typed.Scale.notes s = Some a ->
  Typed.Scale.set_note s i c ref h = (h, Return s)
  \/ (exists e : exn, Typed.Scale.set_note s i c ref h = (h, Raise e))
  \/ exists (j k : nat) (x : R),
       Typed.values a !! j = Some x
       /\ np_index (Typed.size a) i = Return k
       /\ Typed.Scale.set_note s i c ref h
          = (<[Typed.Scale.notes s
               := Typed.assign a k (x * cents_to_rate c)]> h,
             Return s).
Proof.
  intros Hs. unfold Typed.Scale.set_note. cbv zeta.
  destruct (String.eqb ref "current");
    [|destruct (String.eqb ref "previous");
      [|destruct (String.eqb ref "origin"); [|left; reflexivity]]].
  - destruct (typed_set_note_body_cases s h a i i (cents_to_rate c) Hs)
      as [E|(j & k & x & _ & Hx & Hk & E)].
    + right; left. eexists. exact E.
    + right; right. exists j, k, x. repeat split; assumption.
  - destruct (typed_set_note_body_cases s h a (i - 1) i (cents_to_rate c) Hs)
      as [E|(j & k & x & _ & Hx & Hk & E)].
    + right; left. eexists. exact E.
    + right; right. exists j, k, x. repeat split; assumption.
  - destruct (typed_set_note_body_cases s h a 0 i (cents_to_rate c) Hs)
      as [E|(j & k & x & _ & Hx & Hk & E)].
    + right; left. eexists. exact E.
    + right; right. exists j, k, x. repeat split; assumption.
Qed.

Lemma typed_intervals_run (s : Typed.Scale.t) (g : gmap nat Typed.ndarray)
    (b : Typed.ndarray) :
  g !! Typed.Scale.notes s = Some b ->
  Typed.Scale.rates s g
  = (g, Return (Typed.FloatArr (consecutive_ratios (Typed.values b))))
  /\ Typed.Scale.intervals s g
     = (g, Return (Typed.FloatArr
                     (rates_to_cents (consecutive_ratios (Typed.values b))))).
Proof.
  intros Hg.
  assert (Hr : Typed.Scale.rates s g
               = (g, Return (Typed.FloatArr
                               (consecutive_ratios (Typed.values b))))).
  { unfold Typed.Scale.rates.
    rewrite (typed_bind_return _ _ _ _ _ (typed_load_allocated _ _ _ Hg)).
    reflexivity. }
  split; [exact Hr|].
  unfold Typed.Scale.intervals. rewrite (typed_bind_return _ _ _ _ _ Hr).
  reflexivity.
Qed.

(** ** Typed arrays: more on the cumulative builder *)

Lemma typed_scale_from_rates_float (f : Typed.pynum)
    (rates : Typed.ndarray) :
  (exists x : R, f = Typed.PyFloat x)
  \/ (exists l : list R, rates = Typed.FloatArr l) ->
  Typed.scale_from_rates f rates
  = Typed.FloatArr (scale_from_rates (Typed.value f) (Typed.values rates)).
Proof.
  intros Hfloat.
  pose proof (scale_from_rates_float64 f rates) as E.
  destruct f as [z|x], rates as [zs|l]; try exact E.
  destruct Hfloat as [(x & Hx)|(l & Hl)]; discriminate.
Qed.

Lemma typed_concatenate_values (a b : Typed.ndarray) :
  Typed.values (Typed.concatenate a b) = Typed.values a ++ Typed.values b.
Proof. destruct a, b; simpl; rewrite ?map_app; reflexivity. Qed.

(** X1.  With a float origin, the last note of the built scale is the
    origin times every rate, and the scale on the rates [r1] followed by
    [r2] is the scale on [r1] continued by the scale on [r2] from that last
    note, the shared note written once. *)
Theorem scale_from_rates_float_app (f : R) (r1 r2 : Typed.ndarray) :
  last (Typed.values (Typed.scale_from_rates (Typed.PyFloat f) r1))
  = Some (running_product f (Typed.values r1))
  /\ Typed.values
       (Typed.scale_from_rates (Typed.PyFloat f) (Typed.concatenate r1 r2))
     = Typed.values (Typed.scale_from_rates (Typed.PyFloat f) r1)
       ++ tail (Typed.values
                  (Typed.scale_from_rates
                     (Typed.PyFloat (running_product f (Typed.values r1)))
                     r2)).
Proof.
  rewrite !typed_scale_from_rates_float by (left; eexists; reflexivity).
  simpl Typed.values. rewrite typed_concatenate_values.
  unfold scale_from_rates, concatenate. simpl.
  split; [apply cumprod_from_last|].
  rewrite cumprod_from_app. reflexivity.
Qed.

(** X2.  Transposition: with a float origin, multiplying the origin by
    [k] multiplies every note of the built scale by [k]. *)
Theorem scale_from_rates_float_transpose (k f : R)
    (rates : Typed.ndarray) :
  Typed.scale_from_rates (Typed.PyFloat (k * f)) rates
  = Typed.FloatArr
      (map (Rmult k)
         (Typed.values (Typed.scale_from_rates (Typed.PyFloat f) rates))).
Proof.
  rewrite !typed_scale_from_rates_float by (left; eexists; reflexivity).
  simpl Typed.values. simpl Typed.value. f_equal.
  unfold scale_from_rates, concatenate. simpl.
  rewrite cumprod_from_scale. reflexivity.
Qed.

(** X3.  When the origin or the rates are float, a positive origin and
    positive rates build positive notes. *)
Theorem scale_from_rates_float_positive (f : Typed.pynum)
    (rates : Typed.ndarray) :
  (exists x : R, f = Typed.PyFloat x)
  \/ (exists l : list R, rates = Typed.FloatArr l) ->
  0 < Typed.value f ->
  Forall (fun r => 0 < r) (Typed.values rates) ->
  Forall (fun v => 0 < v) (Typed.values (Typed.scale_from_rates f rates)).
Proof.
  intros Hfloat Hf Hrs.
  rewrite (typed_scale_from_rates_float f rates Hfloat).
  simpl Typed.values. unfold scale_from_rates, concatenate. simpl.
  constructor; [exact Hf|]. apply cumprod_from_positive; assumption.
Qed.

Lemma scale_from_rates_float_positive_440 :
  ((exists x : R, Typed.PyInt 440 = Typed.PyFloat x)
   \/ (exists l : list R, Typed.FloatArr [3 / 2; 4 / 3] = Typed.FloatArr l))
  /\ 0 < Typed.value (Typed.PyInt 440)
  /\ Forall (fun r => 0 < r) (Typed.values (Typed.FloatArr [3 / 2; 4 / 3]))
  /\ Forall (fun v => 0 < v)
       (Typed.values
          (Typed.scale_from_rates (Typed.PyInt 440)
             (Typed.FloatArr [3 / 2; 4 / 3]))).
Proof.
  assert (Hd : (exists x : R, Typed.PyInt 440 = Typed.PyFloat x)
    \/ (exists l : list R, Typed.FloatArr [3 / 2; 4 / 3] = Typed.FloatArr l)).
  { right. eexists. reflexivity. }
  assert (Hf : 0 < Typed.value (Typed.PyInt 440)) by (simpl; lra).
  assert (Hrs : Forall (fun r => 0 < r)
                  (Typed.values (Typed.FloatArr [3 / 2; 4 / 3]))).
  { simpl. repeat constructor; lra. }
  split; [exact Hd|]. split; [exact Hf|]. split; [exact Hrs|].
  apply (scale_from_rates_float_positive (Typed.PyInt 440)
           (Typed.FloatArr [3 / 2; 4 / 3]) Hd Hf Hrs).
Defined.

(** X21.  A scale built from an origin and rates that are not zero, the
    origin or the rates being float, reports those rates as its
    [rates()]. *)
Theorem Scale_init_rates_round_trip_float (f : Typed.pynum)
    (r : Typed.array_like) (a : Typed.ndarray)
    (h : gmap nat Typed.ndarray) :
  Typed.asarray r h = (h, Return a) ->
  (exists x : R, f = Typed.PyFloat x)
  \/ (exists l : list R, a = Typed.FloatArr l) ->
  Typed.value f <> 0 ->
  Forall (fun v => v <> 0) (Typed.values a) ->
  exists (s : Typed.Scale.t) (h' : gmap nat Typed.ndarray),
    Typed.Scale.init (Some f) (Some r) None h = (h', Return s)
    /\ Typed.Scale.rates s h'
       = (h', Return (Typed.FloatArr (Typed.values a))).
Proof.
  intros Hr Hfloat Hf Hnz.
  destruct (typed_init_from_rates h f r a Hr) as (p & _ & E).
  exists (Typed.Scale.mk p), (<[p := Typed.scale_from_rates f a]> h).
  split; [exact E|].
  assert (Hp : <[p := Typed.scale_from_rates f a]> h !! p
               = Some (Typed.scale_from_rates f a))
    by apply lookup_insert_eq.
  rewrite (proj1 (typed_intervals_run (Typed.Scale.mk p) _ _ Hp)).
  rewrite (typed_scale_from_rates_float f a Hfloat). simpl Typed.values.
  rewrite consecutive_ratios_scale_from_rates by assumption. reflexivity.
Qed.

Lemma Scale_init_rates_round_trip_float_440 :
  Typed.asarray (Typed.PyList [Typed.PyFloat (9 / 8); Typed.PyFloat (10 / 9)])
    ∅
  = (∅, Return (Typed.FloatArr [9 / 8; 10 / 9]))
  /\ Typed.value (Typed.PyInt 440) <> 0
  /\ Forall (fun v => v <> 0) (Typed.values (Typed.FloatArr [9 / 8; 10 / 9]))
  /\ exists (s : Typed.Scale.t) (h' : gmap nat Typed.ndarray),
    Typed.Scale.init (Some (Typed.PyInt 440))
      (Some (Typed.PyList [Typed.PyFloat (9 / 8); Typed.PyFloat (10 / 9)]))
      None ∅
    = (h', Return s)
    /\ Typed.Scale.rates s h'
       = (h', Return (Typed.FloatArr
                        (Typed.values (Typed.FloatArr [9 / 8; 10 / 9])))).
Proof.
  assert (Hf : Typed.value (Typed.PyInt 440) <> 0) by (simpl; lra).
  assert (Hnz : Forall (fun v => v <> 0)
                  (Typed.values (Typed.FloatArr [9 / 8; 10 / 9]))).
  { simpl. repeat constructor; lra. }
  split; [reflexivity|]. split; [exact Hf|]. split; [exact Hnz|].
  apply (Scale_init_rates_round_trip_float (Typed.PyInt 440)
           (Typed.PyList [Typed.PyFloat (9 / 8); Typed.PyFloat (10 / 9)])
           (Typed.FloatArr [9 / 8; 10 / 9]) ∅ eq_refl);
    [right; eexists; reflexivity|exact Hf|exact Hnz].
Defined.

(** ** Typed arrays: more on set_note *)

(** X11.  A call of [set_note] on a scale with notes, whatever its
    arguments, leaves the scale with as many notes of the same element
    type and the store with the same arrays; when it raises, the store is
    as before; when it returns, it returns the scale. *)
Theorem set_note_keeps_shape (s : Typed.Scale.t)
    (h : gmap nat Typed.ndarray) (a : Typed.ndarray)
    (i : Z) (c : R) (ref : string) :
  h !! Typed.Scale.notes s = Some a ->
  exists (h' : gmap nat Typed.ndarray) (r : outcome Typed.Scale.t)
         (a' : Typed.ndarray),
    Typed.Scale.set_note s i c ref h = (h', r)
    /\ (forall e : exn, r = Raise e -> h' = h)
    /\ (forall s' : Typed.Scale.t, r = Return s' -> s' = s)
    /\ h' !! Typed.Scale.notes s = Some a'
    /\ Typed.size a' = Typed.size a
    /\ match a, a' with
       | Typed.IntArr _, Typed.IntArr _ => True
       | Typed.FloatArr _, Typed.FloatArr _ => True
       | _, _ => False
       end
    /\ dom h' = dom h.
Proof.
  intros Hs.
  assert (Hsame : match a, a with
                  | Typed.IntArr _, Typed.IntArr _ => True
                  | Typed.FloatArr _, Typed.FloatArr _ => True
                  | _, _ => False
                  end) by (destruct a; exact I).
  destruct (typed_set_note_cases s h a i c ref Hs)
    as [E|[(e & E)|(j & k & x & Hx & Hk & E)]].
  - exists h, (Return s), a. split; [exact E|].
    split; [discriminate|]. split; [congruence|].
    repeat split; assumption.
  - exists h, (Raise e), a. split; [exact E|].
    split; [reflexivity|]. split; [discriminate|].
    repeat split; assumption.
  - exists (<[Typed.Scale.notes s
              := Typed.assign a k (x * cents_to_rate c)]> h),
           (Return s), (Typed.assign a k (x * cents_to_rate c)).
    split; [exact E|]. split; [discriminate|]. split; [congruence|].
    split; [apply lookup_insert_eq|].
    split; [apply typed_assign_size|].
    split; [destruct a; exact I|].
    apply dom_insert_lookup_L. rewrite Hs. eexists; reflexivity.
Qed.

Lemma set_note_keeps_shape_past_end :
  let s := Typed.Scale.mk 0 in
  let h : gmap nat Typed.ndarray :=
    {[ 0%nat := Typed.IntArr [100; 200; 400]%Z ]} in
  h !! Typed.Scale.notes s = Some (Typed.IntArr [100; 200; 400]%Z)
  /\ exists (h' : gmap nat Typed.ndarray) (r : outcome Typed.Scale.t)
            (a' : Typed.ndarray),
    Typed.Scale.set_note s 7 50 "origin" h = (h', r)
    /\ (forall e : exn, r = Raise e -> h' = h)
    /\ (forall s' : Typed.Scale.t, r = Return s' -> s' = s)
    /\ h' !! Typed.Scale.notes s = Some a'
    /\ Typed.size a' = Typed.size (Typed.IntArr [100; 200; 400]%Z)
    /\ match Typed.IntArr [100; 200; 400]%Z, a' with
       | Typed.IntArr _, Typed.IntArr _ => True
       | Typed.FloatArr _, Typed.FloatArr _ => True
       | _, _ => False
       end
    /\ dom h' = dom h.
Proof.
  intros s h. split; [apply lookup_singleton_eq|].
  apply (set_note_keeps_shape s h (Typed.IntArr [100; 200; 400]%Z) 7 50
           "origin").
  apply lookup_singleton_eq.
Defined.

(** X12.  On float64 notes [set_note] keeps the notes positive: if they
    are all positive before a call, they are all positive after it. *)
Theorem set_note_float_keeps_positive (s : Typed.Scale.t)
    (h : gmap nat Typed.ndarray) (a : list R)
    (i : Z) (c : R) (ref : string) :
  h !! Typed.Scale.notes s = Some (Typed.FloatArr a) ->
  Forall (fun v => 0 < v) a ->
  exists (h' : gmap nat Typed.ndarray) (r : outcome Typed.Scale.t)
         (a' : list R),
    Typed.Scale.set_note s i c ref h = (h', r)
    /\ h' !! Typed.Scale.notes s = Some (Typed.FloatArr a')
    /\ Forall (fun v => 0 < v) a'.
Proof.
  intros Hs Hpos.
  destruct (typed_set_note_cases s h _ i c ref Hs)
    as [E|[(e & E)|(j & k & x & Hx & Hk & E)]].
  - exists h, (Return s), a. repeat split; assumption.
  - exists h, (Raise e), a. repeat split; assumption.
  - simpl in Hx, E.
    exists (<[Typed.Scale.notes s
              := Typed.FloatArr (<[k := x * cents_to_rate c]> a)]> h),
           (Return s), (<[k := x * cents_to_rate c]> a).
    split; [exact E|]. split; [apply lookup_insert_eq|].
    apply Forall_insert; [exact Hpos|].
    apply Rmult_lt_0_compat; [|apply pow2_pos].
    apply (Forall_lookup_1 _ _ _ _ Hpos Hx).
Qed.

Lemma set_note_float_keeps_positive_lowered :
  let s := Typed.Scale.mk 0 in
  let h : gmap nat Typed.ndarray :=
    {[ 0%nat := Typed.FloatArr [100; 200; 400] ]} in
  h !! Typed.Scale.notes s = Some (Typed.FloatArr [100; 200; 400])
  /\ Forall (fun v => 0 < v) [100; 200; 400]
  /\ exists (h' : gmap nat Typed.ndarray) (r : outcome Typed.Scale.t)
            (a' : list R),
    Typed.Scale.set_note s (-1) (-2400) "previous" h = (h', r)
    /\ h' !! Typed.Scale.notes s = Some (Typed.FloatArr a')
    /\ Forall (fun v => 0 < v) a'.
Proof.
  intros s h.
  assert (Hpos : Forall (fun v => 0 < v) [100; 200; 400]).
  { repeat constructor; lra. }
  split; [apply lookup_singleton_eq|]. split; [exact Hpos|].
  apply (set_note_float_keeps_positive s h [100; 200; 400] (-1) (-2400)
           "previous"); [apply lookup_singleton_eq|exact Hpos].
Defined.




Lemma typed_getitem_position (a : Typed.ndarray) (i : nat) (x : R) :
  Typed.values a !! i = Some x -> Typed.getitem a (Z.of_nat i) = Return x.
Proof.
  intros E. apply (typed_getitem_index a _ i x); [|exact E].
  apply np_index_position. rewrite <- typed_size_values.
  eapply lookup_lt_Some. exact E.
Qed.

(** One branch of [set_note] on float64 notes, at a position counted from
    the start. *)
Lemma typed_set_note_float_run (s : Typed.Scale.t)
    (h : gmap nat Typed.ndarray) (a : list R)
    (src : Z) (i : nat) (v rate : R) :
  h !! Typed.Scale.notes s = Some (Typed.FloatArr a) ->
  (i < length a)%nat ->
  Typed.getitem (Typed.FloatArr a) src = Return v ->
  (a ← Typed.load (Typed.Scale.notes s);
   x ← Typed.lift (Typed.getitem a src);
   a' ← Typed.lift (Typed.setitem a (Z.of_nat i) (x * rate));
   _ ← Typed.write (Typed.Scale.notes s) a';
   mret s) h
  = (<[Typed.Scale.notes s := Typed.FloatArr (<[i := v * rate]> a)]> h,
     Return s).
Proof.
  intros Hs Hi Hget.
  apply (typed_set_note_body_run s h _ _ _ _ v _ Hs Hget).
  apply (typed_setitem_index (Typed.FloatArr a) _ i).
  apply np_index_position. exact Hi.
Qed.

(** X16.  On float64 notes two ['current'] edits of one note add their
    cents: after an edit by [c1] that returns, an edit by [c2] gives what
    one edit by [c1 + c2] gives on the first store, and an edit by [-c1]
    gives the first store back. *)
Theorem set_note_float_current_adds_cents (s : Typed.Scale.t)
    (h h1 : gmap nat Typed.ndarray) (a : list R) (i : Z) (c1 c2 : R) :
  h !! Typed.Scale.notes s = Some (Typed.FloatArr a) ->
  Typed.Scale.set_note s i c1 "current" h = (h1, Return s) ->
  Typed.Scale.set_note s i c2 "current" h1
  = Typed.Scale.set_note s i (c1 + c2) "current" h
  /\ Typed.Scale.set_note s i (- c1) "current" h1 = (h, Return s).
Proof.
  intros Hs Hrun.
  assert (Hshape : exists (k : nat) (x : R),
            np_index (length a) i = Return k /\ a !! k = Some x
            /\ h1 = <[Typed.Scale.notes s
                      := Typed.FloatArr (<[k := x * cents_to_rate c1]> a)]> h).
  { unfold Typed.Scale.set_note in Hrun. revert Hrun. pick_branch.
    intros Hrun.
    destruct (typed_set_note_body_cases s h _ i i (cents_to_rate c1) Hs)
      as [E|(j & k & x & Hj & Hx & Hk & E)].
    - rewrite E in Hrun. discriminate.
    - rewrite E in Hrun. injection Hrun as <-.
      rewrite Hj in Hk. injection Hk as ->.
      exists k, x. repeat split; assumption. }
  destruct Hshape as (k & x & Hk & Hx & ->).
  set (a1 := <[k := x * cents_to_rate c1]> a).
  assert (Hlt : (k < length a)%nat) by (eapply lookup_lt_Some; exact Hx).
  assert (H1 : <[Typed.Scale.notes s := Typed.FloatArr a1]> h
               !! Typed.Scale.notes s = Some (Typed.FloatArr a1))
    by apply lookup_insert_eq.
  assert (Hk1 : np_index (Typed.size (Typed.FloatArr a1)) i = Return k).
  { simpl. unfold a1. rewrite length_insert. exact Hk. }
  assert (Hx1 : Typed.values (Typed.FloatArr a1) !! k
                = Some (x * cents_to_rate c1)).
  { simpl. unfold a1. apply list_lookup_insert_eq. exact Hlt. }
  assert (Hedit : forall c : R,
    Typed.Scale.set_note s i c "current"
      (<[Typed.Scale.notes s := Typed.FloatArr a1]> h)
    = (<[Typed.Scale.notes s
         := Typed.FloatArr (<[k := x * cents_to_rate (c1 + c)]> a)]> h,
       Return s)).
  { intros c. unfold Typed.Scale.set_note. pick_branch.
    rewrite (typed_set_note_body_run s _ (Typed.FloatArr a1)
               (Typed.assign (Typed.FloatArr a1) k
                  (x * cents_to_rate c1 * cents_to_rate c))
               i i (x * cents_to_rate c1) (cents_to_rate c) H1
               (typed_getitem_index _ _ _ _ Hk1 Hx1)
               (typed_setitem_index _ _ _ _ Hk1)).
    simpl Typed.assign. unfold a1.
    rewrite list_insert_insert_eq, insert_insert_eq.
    rewrite Rmult_assoc, cents_to_rate_add. reflexivity. }
  split.
  - rewrite Hedit. unfold Typed.Scale.set_note. pick_branch.
    rewrite (typed_set_note_body_run s h (Typed.FloatArr a)
               (Typed.assign (Typed.FloatArr a) k
                  (x * cents_to_rate (c1 + c2)))
               i i x (cents_to_rate (c1 + c2)) Hs
               (typed_getitem_index (Typed.FloatArr a) _ _ _ Hk Hx)
               (typed_setitem_index (Typed.FloatArr a) _ _ _ Hk)).
    reflexivity.
  - rewrite Hedit. replace (c1 + - c1) with 0 by lra.
    rewrite cents_to_rate_0, Rmult_1_r.
    rewrite (list_insert_id _ _ _ Hx), (insert_id _ _ _ Hs). reflexivity.
Qed.

Lemma set_note_float_current_adds_cents_fifth :
  let s := Typed.Scale.mk 0 in
  let h : gmap nat Typed.ndarray :=
    {[ 0%nat := Typed.FloatArr [100; 200; 400] ]} in
  let h1 : gmap nat Typed.ndarray :=
    <[Typed.Scale.notes s
      := Typed.FloatArr (<[1%nat := 200 * cents_to_rate 500]> [100; 200; 400])]>
      h in
  h !! Typed.Scale.notes s = Some (Typed.FloatArr [100; 200; 400])
  /\ Typed.Scale.set_note s 1 500 "current" h = (h1, Return s)
  /\ Typed.Scale.set_note s 1 200 "current" h1
     = Typed.Scale.set_note s 1 (500 + 200) "current" h
  /\ Typed.Scale.set_note s 1 (- 500) "current" h1 = (h, Return s).
Proof.
  intros s h h1.
  assert (Hs : h !! Typed.Scale.notes s
               = Some (Typed.FloatArr [100; 200; 400]))
    by apply lookup_singleton_eq.
  assert (Hrun : Typed.Scale.set_note s 1 500 "current" h = (h1, Return s)).
  { unfold Typed.Scale.set_note. pick_branch. change 1%Z with (Z.of_nat 1).
    apply (typed_set_note_float_run s h [100; 200; 400] _ 1 200 _ Hs);
      [simpl; lia|reflexivity]. }
  split; [exact Hs|]. split; [exact Hrun|].
  apply (set_note_float_current_adds_cents s h h1 [100; 200; 400] 1 500 200
           Hs Hrun).
Defined.

(** X17.  On float64 notes, after [set_note(i, c, 'previous')] at an index
    [1 <= i < len] whose predecessor is not zero, [intervals()] reports
    [c] as the interval from note [i-1] to note [i]. *)
Theorem set_note_float_previous_sets_interval (s : Typed.Scale.t)
    (h : gmap nat Typed.ndarray) (a : list R) (i : nat) (c y : R) :
  h !! Typed.Scale.notes s = Some (Typed.FloatArr a) ->
  (1 <= i < length a)%nat ->
  a !! (i - 1)%nat = Some y ->
  y <> 0 ->
  exists (h' : gmap nat Typed.ndarray) (cs : list R),
    Typed.Scale.set_note s (Z.of_nat i) c "previous" h = (h', Return s)
    /\ Typed.Scale.intervals s h' = (h', Return (Typed.FloatArr cs))
    /\ cs !! (i - 1)%nat = Some c.
Proof.
  intros Hs Hi Hy Hnz.
  set (a' := <[i := y * cents_to_rate c]> a).
  exists (<[Typed.Scale.notes s := Typed.FloatArr a']> h),
         (rates_to_cents (consecutive_ratios a')).
  assert (H' : <[Typed.Scale.notes s := Typed.FloatArr a']> h
               !! Typed.Scale.notes s = Some (Typed.FloatArr a'))
    by apply lookup_insert_eq.
  split; [|split].
  - unfold Typed.Scale.set_note. pick_branch.
    apply (typed_set_note_float_run s h a _ i y _ Hs); [lia|].
    replace (Z.of_nat i - 1)%Z with (Z.of_nat (i - 1)) by lia.
    apply typed_getitem_position. exact Hy.
  - apply (proj2 (typed_intervals_run s _ _ H')).
  - unfold rates_to_cents.
    change (map (fun x => 1200 * log2 x) (consecutive_ratios a'))
      with ((fun x => 1200 * log2 x) <$> consecutive_ratios a').
    rewrite list_lookup_fmap, consecutive_ratios_lookup.
    replace (S (i - 1)) with i by lia.
    unfold a'. rewrite list_lookup_insert_ne by lia. rewrite Hy.
    rewrite list_lookup_insert_eq by lia. simpl. f_equal.
    replace (y * cents_to_rate c / y) with (cents_to_rate c)
      by (field; exact Hnz).
    apply cents_of_rate_of_cents.
Qed.

Lemma set_note_float_previous_sets_interval_fifth :
  let s := Typed.Scale.mk 0 in
  let h : gmap nat Typed.ndarray :=
    {[ 0%nat := Typed.FloatArr [100; 200; 400] ]} in
  h !! Typed.Scale.notes s = Some (Typed.FloatArr [100; 200; 400])
  /\ (1 <= 2 < length [100; 200; 400])%nat
  /\ [100; 200; 400] !! (2 - 1)%nat = Some 200
  /\ 200 <> 0
  /\ exists (h' : gmap nat Typed.ndarray) (cs : list R),
    Typed.Scale.set_note s (Z.of_nat 2) 700 "previous" h = (h', Return s)
    /\ Typed.Scale.intervals s h' = (h', Return (Typed.FloatArr cs))
    /\ cs !! (2 - 1)%nat = Some 700.
Proof.
  intros s h. split; [apply lookup_singleton_eq|].
  split; [simpl; lia|]. split; [reflexivity|]. split; [lra|].
  apply (set_note_float_previous_sets_interval s h [100; 200; 400] 2 700 200);
    [apply lookup_singleton_eq|simpl; lia|reflexivity|lra].
Defined.

(** X18.  On float64 notes that are all positive, after
    [set_note(i, c, 'origin')] at an index [1 <= i < len] the first [i]
    values of [intervals()] add up to [c]: note [i] is [c] cents above
    the origin. *)
Theorem set_note_float_origin_sets_span (s : Typed.Scale.t)
    (h : gmap nat Typed.ndarray) (a : list R) (i : nat) (c : R) :
  h !! Typed.Scale.notes s = Some (Typed.FloatArr a) ->
  (1 <= i < length a)%nat ->
  Forall (fun v => 0 < v) a ->
  exists (h' : gmap nat Typed.ndarray) (cs : list R),
    Typed.Scale.set_note s (Z.of_nat i) c "origin" h = (h', Return s)
    /\ Typed.Scale.intervals s h' = (h', Return (Typed.FloatArr cs))
    /\ foldr Rplus 0 (take i cs) = c.
Proof.
  intros Hs Hi Hpos.
  destruct a as [|x0 xs]; [simpl in Hi; lia|].
  destruct i as [|i]; [lia|].
  set (a' := <[S i := x0 * cents_to_rate c]> (x0 :: xs)).
  assert (Hx0 : 0 < x0) by (inversion Hpos; assumption).
  assert (Hpos' : Forall (fun v => 0 < v) a').
  { apply Forall_insert; [exact Hpos|].
    apply Rmult_lt_0_compat; [exact Hx0|apply pow2_pos]. }
  assert (H' : <[Typed.Scale.notes s := Typed.FloatArr a']> h
               !! Typed.Scale.notes s = Some (Typed.FloatArr a'))
    by apply lookup_insert_eq.
  exists (<[Typed.Scale.notes s := Typed.FloatArr a']> h),
         (rates_to_cents (consecutive_ratios a')).
  split; [|split].
  - unfold Typed.Scale.set_note. pick_branch.
    apply (typed_set_note_float_run s h (x0 :: xs) _ (S i) x0 _ Hs);
      [lia|reflexivity].
  - apply (proj2 (typed_intervals_run s _ _ H')).
  - assert (Hy : a' !! S i = Some (x0 * cents_to_rate c)).
    { unfold a'. apply list_lookup_insert_eq. lia. }
    unfold a' in *. simpl in Hpos', Hy |- *.
    rewrite (intervals_prefix_sum _ x0 (x0 * cents_to_rate c) (S i) Hpos' Hy).
    replace (x0 * cents_to_rate c / x0) with (cents_to_rate c)
      by (field; lra).
    apply cents_of_rate_of_cents.
Qed.

Lemma set_note_float_origin_sets_span_fifth :
  let s := Typed.Scale.mk 0 in
  let h : gmap nat Typed.ndarray :=
    {[ 0%nat := Typed.FloatArr [100; 150; 300] ]} in
  h !! Typed.Scale.notes s = Some (Typed.FloatArr [100; 150; 300])
  /\ (1 <= 2 < length [100; 150; 300])%nat
  /\ Forall (fun v => 0 < v) [100; 150; 300]
  /\ exists (h' : gmap nat Typed.ndarray) (cs : list R),
    Typed.Scale.set_note s (Z.of_nat 2) 700 "origin" h = (h', Return s)
    /\ Typed.Scale.intervals s h' = (h', Return (Typed.FloatArr cs))
    /\ foldr Rplus 0 (take 2 cs) = 700.
Proof.
  intros s h.
  assert (Hpos : Forall (fun v => 0 < v) [100; 150; 300]).
  { repeat constructor; lra. }
  split; [apply lookup_singleton_eq|]. split; [simpl; lia|].
  split; [exact Hpos|].
  apply (set_note_float_origin_sets_span s h [100; 150; 300] 2 700);
    [apply lookup_singleton_eq|simpl; lia|exact Hpos].
Defined.

(** ** The two models on float64 *)

(** On float64 notes the typed [set_note] is [set_note] of the first
    part: the same outcome, and the same contents in every array. *)
Lemma set_note_float64_agrees (p : loc) (h : gmap nat Typed.ndarray)
    (a : list R) (i : Z) (c : R) (ref : string) :
  h !! p = Some (Typed.FloatArr a) ->
  exists (h' : gmap nat Typed.ndarray) (b : list R),
    h' !! p = Some (Typed.FloatArr b)
    /\ ((Typed.Scale.set_note (Typed.Scale.mk p) i c ref h
         = (h', Return (Typed.Scale.mk p))
         /\ Scale.set_note (Scale.mk p) i c ref (Typed.values <$> h)
            = (Typed.values <$> h', Return (Scale.mk p)))
        \/ (exists e : exn,
              Typed.Scale.set_note (Typed.Scale.mk p) i c ref h
              = (h', Raise e)
              /\ Scale.set_note (Scale.mk p) i c ref (Typed.values <$> h)
                 = (Typed.values <$> h', Raise e))).
Proof.
  intros Hp.
  assert (Hv : (Typed.values <$> h) !! p = Some a).
  { rewrite lookup_fmap, Hp. reflexivity. }
  assert (Hbody : forall src : Z,
    exists (h' : gmap nat Typed.ndarray) (b : list R),
      h' !! p = Some (Typed.FloatArr b)
      /\ (((a ← Typed.load p;
            x ← Typed.lift (Typed.getitem a src);
            a' ← Typed.lift (Typed.setitem a i (x * cents_to_rate c));
            _ ← Typed.write p a';
            mret (Typed.Scale.mk p)) h
           = (h', Return (Typed.Scale.mk p))
           /\ (a ← load p;
               x ← lift (getitem a src);
               a' ← lift (setitem a i (x * cents_to_rate c));
               _ ← write p a';
               mret (Scale.mk p)) (Typed.values <$> h)
              = (Typed.values <$> h', Return (Scale.mk p)))
          \/ (exists e : exn,
                (a ← Typed.load p;
                 x ← Typed.lift (Typed.getitem a src);
                 a' ← Typed.lift (Typed.setitem a i (x * cents_to_rate c));
                 _ ← Typed.write p a';
                 mret (Typed.Scale.mk p)) h
                = (h', Raise e)
                /\ (a ← load p;
                    x ← lift (getitem a src);
                    a' ← lift (setitem a i (x * cents_to_rate c));
                    _ ← write p a';
                    mret (Scale.mk p)) (Typed.values <$> h)
                   = (Typed.values <$> h', Raise e)))).
  { intros src.
    rewrite (typed_bind_return _ _ _ _ _ (typed_load_allocated _ _ _ Hp)).
    rewrite (bind_return _ _ _ _ _ (load_allocated _ _ _ Hv)).
    unfold mbind, Typed.TM_bind, M_bind, Typed.lift, lift, Typed.write,
      write, mret, Typed.TM_ret, M_ret.
    change (Typed.getitem (Typed.FloatArr a) src) with (getitem a src).
    destruct (getitem a src) as [x|e].
    - unfold Typed.setitem, setitem. simpl Typed.size.
      destruct (np_index (length a) i) as [k|e].
      + exists (<[p := Typed.FloatArr (<[k := x * cents_to_rate c]> a)]> h),
               (<[k := x * cents_to_rate c]> a).
        split; [apply lookup_insert_eq|]. left.
        split; [reflexivity|]. rewrite fmap_insert. reflexivity.
      + exists h, a. split; [exact Hp|]. right. exists e.
        split; reflexivity.
    - exists h, a. split; [exact Hp|]. right. exists e. split; reflexivity. }
  unfold Typed.Scale.set_note, Scale.set_note. cbv zeta.
  destruct (String.eqb ref "current"); [apply Hbody|].
  destruct (String.eqb ref "previous"); [apply Hbody|].
  destruct (String.eqb ref "origin"); [apply Hbody|].
  exists h, a. split; [exact Hp|]. left. split; reflexivity.
Qed.
